(** * A service registry over consistent-hash rings

    Shallow embedding of three Go packages:

    - [pkg/cluster/members/members.go]: peer information and its tag encoding
      ([encodePeerInfoTag], [decodePeerInfoTag]);
    - [pkg/cluster/registry/real.go]: the registry ([real]) with its
      operations [Add], [Remove], [Update], [Info];
    - [pkg/registry/api.go]: the event adapter ([HandleEvent]).

    The registry keeps one consistent-hash ring per category.  The ring's
    package, [hashring], is modelled from the specification of the system:
    every definition of [Module hashring] says so.

    Go maps are stdpp [gmap]s, Go strings are [string]s, a Go [int] is a [Z]
    together with its range.  The registry holds its lock for the whole body
    of every operation, so an operation is a function from state to state
    and result. *)

From Stdlib Require Import Ascii.
From stdpp Require Import strings gmap list.

Local Open Scope Z_scope.

(** Go's [error] values that occur in the embedded code: [errors.Errorf]
    with its message, and the [*strconv.NumError] of [strconv.Atoi]. *)
Inductive NumErrorKind := ErrSyntax | ErrRange.

Inductive error :=
| Errorf (msg : string)
| NumError (func num : string) (kind : NumErrorKind).

(** ** The parts of Go's [strconv] that [members.go] calls *)
Module strconv.

(** [int] is 64 bits wide on the platforms the program is built for. *)
Definition intSize : Z := 64.
Definition maxInt : Z := 2 ^ (intSize - 1) - 1.
Definition minInt : Z := - 2 ^ (intSize - 1).

Definition isInt (i : Z) : Prop := minInt <= i <= maxInt.

Definition digitOf (d : Z) : ascii := ascii_of_nat (48 + Z.to_nat d).

Definition isDigit (c : ascii) : bool :=
  ((48 <=? nat_of_ascii c) && (nat_of_ascii c <=? 57))%nat.

Definition digitVal (c : ascii) : Z := Z.of_nat (nat_of_ascii c) - 48.

(** [formatBits]: the decimal digits of [u >= 0], least significant
    first, pushed in front of [acc].  The loop runs while [u >= 10]; the
    fuel bounds the number of digits. *)
Fixpoint formatBits (fuel : nat) (u : Z) (acc : string) : string :=
  match fuel with
  | O => acc
  | S fuel' =>
      let acc' := String (digitOf (u mod 10)) acc in
      if u <? 10 then acc' else formatBits fuel' (u / 10) acc'
  end.

(** A number has at most [log2 u + 1] decimal digits. *)
Definition digitsBound (u : Z) : nat := S (Z.to_nat (Z.log2 u)).

(** [strconv.Itoa]: [FormatInt(int64(i), 10)]. *)
Definition Itoa (i : Z) : string :=
  if i <? 0 then String "-" (formatBits (digitsBound (- i)) (- i) "")
  else formatBits (digitsBound i) i "".

(** The number that a string of decimal digits stands for, read on from
    [n]: [n = n*10 + int(ch - '0')] without any bound; [None] when a byte
    is not a digit. *)
Fixpoint digits (s : string) (n : Z) : option Z :=
  match s with
  | EmptyString => Some n
  | String c s' =>
      if isDigit c then digits s' (n * 10 + digitVal c) else None
  end.

(** [ParseUint] at base 10 and 64 bits: [maxVal], and [cutoff], the
    smallest number whose tenfold is above [maxUint64]. *)
Definition maxUint64 : Z := 2 ^ 64 - 1.
Definition cutoff : Z := maxUint64 / 10 + 1.

(** What the loop of [ParseUint] ends with: a syntax error, a range error
    or a number. *)
Inductive Scanned :=
| ScanSyntax
| ScanRange
| ScanValue (n : Z).

(** The loop of [ParseUint], byte by byte: a byte that is no digit is a
    syntax error; a digit that takes the number above [maxUint64] is a
    range error, and the bytes after it are not looked at. *)
Fixpoint parseUint (s : string) (n : Z) : Scanned :=
  match s with
  | EmptyString => ScanValue n
  | String c s' =>
      if isDigit c then
        if cutoff <=? n then ScanRange
        else
          let n1 := n * 10 + digitVal c in
          if maxUint64 <? n1 then ScanRange else parseUint s' n1
      else ScanSyntax
  end.

(** [strconv.Atoi], as its path through [ParseInt(s, 10, 0)] computes it
    (the fast path for short strings returns the same): an optional sign,
    then [ParseUint] on at least one byte, then the range of [int].  The
    value returned beside an error is 0 for a syntax error and the nearest
    bound of [int] for a range error. *)
Definition Atoi (s : string) : Z * option error :=
  let '(neg, body) :=
    match s with
    | String c rest =>
        if Ascii.eqb c "-" then (true, rest)
        else if Ascii.eqb c "+" then (false, rest)
        else (false, s)
    | EmptyString => (false, s)
    end in
  match body with
  | EmptyString => (0, Some (NumError "Atoi" s ErrSyntax))
  | String _ _ =>
      match parseUint body 0 with
      | ScanSyntax => (0, Some (NumError "Atoi" s ErrSyntax))
      | ScanRange =>
          if neg then (minInt, Some (NumError "Atoi" s ErrRange))
          else (maxInt, Some (NumError "Atoi" s ErrRange))
      | ScanValue un =>
          if negb neg && (- minInt <=? un)
          then (maxInt, Some (NumError "Atoi" s ErrRange))
          else if neg && (- minInt <? un)
          then (minInt, Some (NumError "Atoi" s ErrRange))
          else (if neg then - un else un, None)
      end
  end.

End strconv.

(** ** Package [members] *)
Module members.

(** [type PeerType string] *)
Definition PeerType : Type := string.

Definition PeerTypeUnknown : PeerType := "peertype:unknown".

(** [func (p PeerType) String() string] *)
Definition PeerType_String (p : PeerType) : string := p.

(** The [Member] interface, as the values its four methods return. *)
Module Member.
Record t := {
  Name : string;
  Address : string;
  PeerType : PeerType;
  Tags : gmap string string
}.
End Member.

Module PeerInfo.
Record t := {
  Name : string;
  PeerType : PeerType;
  APIAddr : string;
  APIPort : Z
}.

(** The zero value a named result starts from. *)
Definition zero : t :=
  {| Name := ""; PeerType := ""; APIAddr := ""; APIPort := 0 |}.
End PeerInfo.

(** Modelled from the spec: the declarations of [Event], [MemberEvent] and
    their constants are in a file of the package that is not among the
    sources.  The specification has batches "tagged as member-joined /
    member-left / member-updated, each carrying a list of member-like
    values"; the rest follows their use in [HandleEvent]: an [Event] answers
    [Type()], and a type assertion tells whether it is a [MemberEvent],
    which carries an [EventType] and its [Members].  [EventOther] and
    [EventMemberOther] stand for every value the code does not name. *)
Inductive EventType := EventMember | EventOther (tag : nat).

Inductive MemberEventType :=
| EventMemberJoined
| EventMemberLeft
| EventMemberUpdated
| EventMemberOther (tag : nat).

Module MemberEvent.
Record t := {
  EventType : MemberEventType;
  Members : list Member.t
}.
End MemberEvent.

Module Event.
Record t := {
  Type' : EventType;
  (** the result of [event.(members.MemberEvent)] *)
  asMemberEvent : option MemberEvent.t
}.
End Event.

Section PeerInfoTag.

(** The constant [PeerTypeTag] is declared in a file of the package that
    is not among the sources. *)
Variable PeerTypeTag : string.

(** [encodePeerInfoTag]: the map literal, its entries in source order. *)
Definition encodePeerInfoTag (info : PeerInfo.t) : gmap string string :=
  <["api_port" := strconv.Itoa (PeerInfo.APIPort info)]>
    (<["api_addr" := PeerInfo.APIAddr info]>
       (<[PeerTypeTag := PeerType_String (PeerInfo.PeerType info)]>
          (<["name" := PeerInfo.Name info]> ∅))).

(** [decodePeerInfoTag]: the named results [(info, err)]; every early
    return hands back the fields set so far. *)
Definition decodePeerInfoTag (m : gmap string string)
  : PeerInfo.t * option error :=
  let info := PeerInfo.zero in
  match m !! "name" with
  | None => (info, Some (Errorf "missing name"))
  | Some name =>
      let info := {| PeerInfo.Name := name;
                     PeerInfo.PeerType := PeerInfo.PeerType info;
                     PeerInfo.APIAddr := PeerInfo.APIAddr info;
                     PeerInfo.APIPort := PeerInfo.APIPort info |} in
      match m !! PeerTypeTag with
      | None => (info, Some (Errorf ("missing " +:+ PeerTypeTag)))
      | Some peerType =>
          let info := {| PeerInfo.Name := PeerInfo.Name info;
                         PeerInfo.PeerType := peerType;
                         PeerInfo.APIAddr := PeerInfo.APIAddr info;
                         PeerInfo.APIPort := PeerInfo.APIPort info |} in
          match m !! "api_port" with
          | None => (info, Some (Errorf "missing api_port"))
          | Some apiPort =>
              let '(port, err) := strconv.Atoi apiPort in
              let info := {| PeerInfo.Name := PeerInfo.Name info;
                             PeerInfo.PeerType := PeerInfo.PeerType info;
                             PeerInfo.APIAddr := PeerInfo.APIAddr info;
                             PeerInfo.APIPort := port |} in
              match err with
              | Some e => (info, Some e)
              | None =>
                  match m !! "api_addr" with
                  | None =>
                      ({| PeerInfo.Name := PeerInfo.Name info;
                          PeerInfo.PeerType := PeerInfo.PeerType info;
                          PeerInfo.APIAddr := "";
                          PeerInfo.APIPort := PeerInfo.APIPort info |},
                       Some (Errorf "missing api_addr"))
                  | Some addr =>
                      ({| PeerInfo.Name := PeerInfo.Name info;
                          PeerInfo.PeerType := PeerInfo.PeerType info;
                          PeerInfo.APIAddr := addr;
                          PeerInfo.APIPort := PeerInfo.APIPort info |},
                       None)
                  end
              end
          end
      end
  end.

End PeerInfoTag.

End members.

(** ** Package [hashring] *)
Module hashring.

(** Two details of the ring that neither the registry's code nor the
    specification fixes, taken as parameters: the bytes hashed for the
    [i]-th virtual node of an address, and the string under which [Walk]
    hands a position to its visitor (the visitor's [hash] argument is a
    string). *)
Class Layout := {
  virtualKey : string → nat → string;
  positionKey : N → string
}.

(** Modelled from the spec: the package is not among the sources; the
    registry only calls it.  A ring is "a sorted collection of
    (hashPosition → address) pairs", built with a hash function to 32-bit
    positions and a replication factor. *)
Record HashRing := {
  hashFn : string → N;
  replicationFactor : Z;
  positions : list (N * string)
}.

(** Modelled from the spec: [New(hashFn, replicationFactor)], an empty
    ring. *)
Definition New (hashFn : string → N) (replicationFactor : Z) : HashRing :=
  {| hashFn := hashFn; replicationFactor := replicationFactor;
     positions := [] |}.

(** Modelled from the spec: [Contains(address)], the membership test. *)
Definition Contains (ring : HashRing) (addr : string) : bool :=
  existsb (λ p, String.eqb p.2 addr) (positions ring).

(** Modelled from the spec: the ring's order, ascending by position, a
    collision between two addresses resolved by the address string. *)
Definition before (p q : N * string) : bool :=
  (p.1 <? q.1)%N || ((p.1 =? q.1)%N && String.leb p.2 q.2).

(** Modelled from the spec: a position is inserted at its place in the
    sorted collection. *)
Fixpoint place (p : N * string) (ps : list (N * string))
  : list (N * string) :=
  match ps with
  | [] => [p]
  | q :: ps' => if before p q then p :: q :: ps' else q :: place p ps'
  end.

Section WithLayout.
Context `{!Layout}.

(** Modelled from the spec: the [replicationFactor] virtual positions
    of an address, one derivation per virtual index. *)
Definition virtualPositions (ring : HashRing) (addr : string)
  : list (N * string) :=
  (λ i, (hashFn ring (virtualKey addr i), addr))
    <$> seq 0 (Z.to_nat (replicationFactor ring)).

(** Modelled from the spec: [Add(address)] inserts the virtual positions
    of a fresh address and answers true; for an address already present
    it changes nothing and answers false. *)
Definition Add (ring : HashRing) (addr : string) : HashRing * bool :=
  if Contains ring addr then (ring, false)
  else
    ({| hashFn := hashFn ring;
        replicationFactor := replicationFactor ring;
        positions :=
          foldl (λ ps p, place p ps) (positions ring)
                (virtualPositions ring addr) |},
     true).

(** Modelled from the spec: [Remove(address)] deletes every virtual
    position of the address and answers whether it was present. *)
Definition Remove (ring : HashRing) (addr : string) : HashRing * bool :=
  ({| hashFn := hashFn ring;
      replicationFactor := replicationFactor ring;
      positions :=
        filter (λ p, p.2 ≠ addr) (positions ring) |},
   Contains ring addr).

(** Modelled from the spec: [Walk(visit)] calls the visitor on every
    position in ring order and stops at the first error, which it
    returns.  The visitor is a closure; [S] is the state it captures. *)
Fixpoint walkFrom {S : Type} (visit : string → string → S → S * option error)
  (ps : list (N * string)) (s : S) : S * option error :=
  match ps with
  | [] => (s, None)
  | p :: ps' =>
      let '(s', err) := visit (positionKey p.1) p.2 s in
      match err with
      | Some e => (s', Some e)
      | None => walkFrom visit ps' s'
      end
  end.

(** Modelled from the spec: [Walk] starts at the first position of the
    ring. *)
Definition Walk {S : Type} (ring : HashRing)
  (visit : string → string → S → S * option error) (s : S)
  : S * option error :=
  walkFrom visit (positions ring) s.

End WithLayout.

End hashring.

(** ** Package [registry] ([pkg/cluster/registry]) *)
Module registry.

(** Modelled from the spec: the [Key] interface is declared in a file of
    the package that is not among the sources; it is the "Entry capability
    contract" [Name], [Type], [Address], [Tags], here the values the four
    methods return. *)
Module Key.
Record t := {
  Name : string;
  Type' : string;
  Address : string;
  Tags : gmap string string
}.
End Key.

(** [type key struct { member members.Member }] and its methods. *)
Record key := { member : members.Member.t }.

Definition key_Name (k : key) : string := members.Member.Name (member k).
Definition key_Type (k : key) : string :=
  members.PeerType_String (members.Member.PeerType (member k)).
Definition key_Address (k : key) : string :=
  members.Member.Address (member k).
Definition key_Tags (k : key) : gmap string string :=
  members.Member.Tags (member k).

(** [NewMemberKey]: [&key{member}] seen through the [Key] interface. *)
Definition NewMemberKey (member : members.Member.t) : Key.t :=
  let k := {| member := member |} in
  {| Key.Name := key_Name k; Key.Type' := key_Type k;
     Key.Address := key_Address k; Key.Tags := key_Tags k |}.

(** Modelled from the spec: the [Info] struct is declared in a file of the
    package that is not among the sources; [Info] in [real.go] fills its
    two fields, [Hashes map[string]string] and [Keys map[string][]Key]. *)
Module Info.
Record t := {
  Hashes : gmap string string;
  Keys : gmap string (list Key.t)
}.

(** [Info{}] *)
Definition zero : t := {| Hashes := ∅; Keys := ∅ |}.
End Info.

(** [type real struct]; the mutex has no state of its own here. *)
Record real := {
  hashRings : gmap string hashring.HashRing;
  keys : gmap string (gmap string Key.t);
  hashFn : string → N;
  replicationFactor : Z
}.

Definition New (hashFn : string → N) (replicationFactor : Z) : real :=
  {| hashRings := ∅; keys := ∅; hashFn := hashFn;
     replicationFactor := replicationFactor |}.

Definition withState (r : real) (rings : gmap string hashring.HashRing)
  (index : gmap string (gmap string Key.t)) : real :=
  {| hashRings := rings; keys := index; hashFn := hashFn r;
     replicationFactor := replicationFactor r |}.

(** [getKeysByAddress]: the values of [r.keys[addr]].  Go leaves the order
    of a map range open and may change it from call to call; the model
    fixes the order of [map_to_list].  The properties below speak of this
    list only through what no order changes: its members, its length, its
    being empty, and permutations of it. *)
Definition getKeysByAddress (r : real) (addr : string) : list Key.t :=
  match keys r !! addr with
  | Some row => (map_to_list row).*2
  | None => []
  end.

(** The visitor of [Info]: [hashes[hash] = addr; return nil]. *)
Definition collect (hash addr : string) (hashes : gmap string string)
  : gmap string string * option error :=
  (<[hash := addr]> hashes, None).

(** The second loop of [Info], one step per entry of [hashes]:
    [if k := r.getKeysByAddress(v); len(k) > 0 { keys[v] = append(keys[v], k...) }]. *)
Definition flatten (r : real) (keys : gmap string (list Key.t)) (v : string)
  : gmap string (list Key.t) :=
  let k := getKeysByAddress r v in
  if bool_decide (0 < length k)%nat
  then <[v := default [] (keys !! v) ++ k]> keys
  else keys.

Section WithLayout.
Context `{!hashring.Layout}.

(** [Add]: the ring of the category, made on first use, takes the address;
    the index takes the entry under its address and name, whatever the ring
    answered; the ring's answer is returned. *)
Definition Add (r : real) (key : Key.t) : real * bool :=
  let keyType := Key.Type' key in
  let ring :=
    match hashRings r !! keyType with
    | Some ring => ring
    | None => hashring.New (hashFn r) (replicationFactor r)
    end in
  let addr := Key.Address key in
  let '(ring', res) := hashring.Add ring addr in
  let row :=
    match keys r !! addr with
    | Some row => row
    | None => ∅
    end in
  (withState r (<[keyType := ring']> (hashRings r))
             (<[addr := <[Key.Name key := key]> row]> (keys r)),
   res).

(** [Remove]: the ring of the category, if there is one, drops the
    address; the row of the address, if there is one, drops the name. *)
Definition Remove (r : real) (key : Key.t) : real * bool :=
  let keyType := Key.Type' key in
  let addr := Key.Address key in
  let rings :=
    match hashRings r !! keyType with
    | Some ring => <[keyType := (hashring.Remove ring addr).1]> (hashRings r)
    | None => hashRings r
    end in
  let index :=
    match keys r !! addr with
    | Some row => <[addr := delete (Key.Name key) row]> (keys r)
    | None => keys r
    end in
  (withState r rings index, true).

(** [Update]: three early returns, then the entry is written over the one
    stored under its address and name. *)
Definition Update (r : real) (key : Key.t) : real * bool :=
  let keyType := Key.Type' key in
  let addr := Key.Address key in
  match hashRings r !! keyType with
  | None => (r, false)
  | Some ring =>
      if negb (hashring.Contains ring addr) then (r, false)
      else
        match keys r !! addr with
        | None => (r, false)
        | Some row =>
            let name := Key.Name key in
            match row !! name with
            | None => (r, false)
            | Some _ =>
                (withState r (hashRings r)
                           (<[addr := <[name := key]> row]> (keys r)),
                 true)
            end
        end
  end.

(** [Info], the visitor of its ring walk taken as a parameter: not found
    without a ring or when the walk returns an error; otherwise the
    collected [hashes] and, from its values, [keys]. *)
Definition InfoWith
  (visit : string → string → gmap string string
           → gmap string string * option error)
  (r : real) (s : string) : Info.t * bool :=
  match hashRings r !! s with
  | None => (Info.zero, false)
  | Some hashRing =>
      let '(hashes, err) := hashring.Walk hashRing visit ∅ in
      match err with
      | Some _ => (Info.zero, false)
      | None =>
          let keys := foldl (flatten r) ∅ (map_to_list hashes).*2 in
          ({| Info.Hashes := hashes; Info.Keys := keys |}, true)
      end
  end.

(** [Info] as the source has it, with its own visitor. *)
Definition Info (r : real) (s : string) : Info.t * bool :=
  InfoWith collect r s.

(** A mutating call and what it leaves of the registry; [run] is a
    sequence of such calls, first to last. *)
Inductive Mutation :=
| CallAdd (key : Key.t)
| CallRemove (key : Key.t)
| CallUpdate (key : Key.t).

Definition subject (m : Mutation) : Key.t :=
  match m with
  | CallAdd key | CallRemove key | CallUpdate key => key
  end.

Definition call (r : real) (m : Mutation) : real :=
  match m with
  | CallAdd key => (Add r key).1
  | CallRemove key => (Remove r key).1
  | CallUpdate key => (Update r key).1
  end.

Definition run (r : real) (ms : list Mutation) : real := foldl call r ms.

(** Some position of [addr] among [ps] is the last one that a walk over
    [ps] visits under its position key: no position after it has the same
    key. *)
Fixpoint lastUnderKey (ps : list (N * string)) (addr : string) : bool :=
  match ps with
  | [] => false
  | p :: ps' =>
      (String.eqb p.2 addr
       && forallb (λ q, negb (String.eqb (hashring.positionKey q.1)
                                         (hashring.positionKey p.1))) ps')
      || lastUnderKey ps' addr
  end.

(** The same of a ring, whose walk visits its positions in their order. *)
Definition visitedLast (ring : hashring.HashRing) (addr : string) : bool :=
  lastUnderKey (hashring.positions ring) addr.

End WithLayout.

End registry.

(** ** Package [registry] ([pkg/registry], the HTTP API) *)
Module api.

(** Modelled from the spec: the [registry.Registry] interface is declared
    in a file that is not among the sources; these are its methods that the
    adapter calls, over the state [S] of whatever implements it. *)
Record Registry (S : Type) := {
  Add : S → registry.Key.t → S * bool;
  Remove : S → registry.Key.t → S * bool;
  Update : S → registry.Key.t → S * bool
}.
Arguments Add {S} _ _ _.
Arguments Remove {S} _ _ _.
Arguments Update {S} _ _ _.

(** [type eventAdapter struct { registry registry.Registry }] *)
Record eventAdapter (S : Type) := { registry : Registry S }.
Arguments registry {S} _.

Definition membersToKeys (m : list members.Member.t) : list registry.Key.t :=
  registry.NewMemberKey <$> m.

(** [HandleEvent]; the boolean each call returns is dropped. *)
Definition HandleEvent {S : Type} (e : eventAdapter S) (st : S)
  (event : members.Event.t) : S * option error :=
  match members.Event.Type' event with
  | members.EventMember =>
      match members.Event.asMemberEvent event with
      | None => (st, None)
      | Some memberEvent =>
          let fn :=
            match members.MemberEvent.EventType memberEvent with
            | members.EventMemberJoined => Some (Add (registry e))
            | members.EventMemberLeft => Some (Remove (registry e))
            | members.EventMemberUpdated => Some (Update (registry e))
            | members.EventMemberOther _ => None
            end in
          match fn with
          | None => (st, None)
          | Some fn =>
              let keys := membersToKeys (members.MemberEvent.Members memberEvent) in
              (foldl (λ st v, (fn st v).1) st keys, None)
          end
      end
  | members.EventOther _ => (st, None)
  end.

(** A call on the registry, as the specification names them, and the
    calls it prescribes for an event: for a member event, one call per
    member in the order of the batch, [Add] for joined, [Remove] for left,
    [Update] for updated; none for anything else. *)
Inductive Call :=
| Added (key : registry.Key.t)
| Removed (key : registry.Key.t)
| Updated (key : registry.Key.t).

Definition prescribed (event : members.Event.t) : list Call :=
  match members.Event.Type' event, members.Event.asMemberEvent event with
  | members.EventMember, Some memberEvent =>
      let batch := members.MemberEvent.Members memberEvent in
      match members.MemberEvent.EventType memberEvent with
      | members.EventMemberJoined =>
          (λ m, Added (registry.NewMemberKey m)) <$> batch
      | members.EventMemberLeft =>
          (λ m, Removed (registry.NewMemberKey m)) <$> batch
      | members.EventMemberUpdated =>
          (λ m, Updated (registry.NewMemberKey m)) <$> batch
      | members.EventMemberOther _ => []
      end
  | _, _ => []
  end.

(** One call made on a registry, its boolean dropped. *)
Definition perform {S : Type} (reg : Registry S) (st : S) (c : Call) : S :=
  match c with
  | Added key => (Add reg st key).1
  | Removed key => (Remove reg st key).1
  | Updated key => (Update reg st key).1
  end.

(** A registry that records the calls made on it and answers each as
    [answer] says. *)
Definition recorder (answer : Call → bool) : Registry (list Call) :=
  {| Add log key := (log ++ [Added key], answer (Added key));
     Remove log key := (log ++ [Removed key], answer (Removed key));
     Update log key := (log ++ [Updated key], answer (Updated key)) |}.

(** The registry of [pkg/cluster/registry] behind the interface. *)
Definition realRegistry `{!hashring.Layout} : Registry registry.real :=
  {| Add := registry.Add; Remove := registry.Remove;
     Update := registry.Update |}.

End api.

(** ** Values for the examples *)
Module scenario.

(** Virtual node [i] of an address hashes the address followed by [i] in
    decimal; a position is shown in decimal. *)
Definition decimal : hashring.Layout :=
  {| hashring.virtualKey addr i := addr +:+ strconv.Itoa (Z.of_nat i);
     hashring.positionKey h := strconv.Itoa (Z.of_N h) |}.

(** FNV-1a, 32 bits, as [hash/fnv]'s [New32a] computes it. *)
Definition fnv32a (data : string) : N :=
  foldl (λ h c, ((N.lxor h (N_of_ascii c)) * 16777619) mod 2 ^ 32)%N
        2166136261%N (String.list_ascii_of_string data).

(** A hash function under which all positions collide. *)
Definition flat (data : string) : N := 0%N.

(** A hash function under which the virtual nodes whose key ends in "0"
    collide, and the others are hashed by FNV-1a. *)
Definition half (data : string) : N :=
  if String.eqb (String.substring (String.length data - 1) 1 data) "0"
  then 0%N else fnv32a data.

Definition entry (name category address : string)
  (tags : gmap string string) : registry.Key.t :=
  {| registry.Key.Name := name; registry.Key.Type' := category;
     registry.Key.Address := address; registry.Key.Tags := tags |}.

Definition A : registry.Key.t := entry "nodeA" "worker" "10.0.0.1:7000" ∅.
Definition B : registry.Key.t := entry "nodeB" "worker" "10.0.0.2:7000" ∅.
(** [B] with new tags. *)
Definition B' : registry.Key.t :=
  entry "nodeB" "worker" "10.0.0.2:7000" {[ "zone" := "eu" ]}.
(** An entry of another category at the address and under the name of [A]. *)
Definition A_store : registry.Key.t :=
  entry "nodeA" "store" "10.0.0.1:7000" {[ "role" := "store" ]}.
(** A second entry at the address of [A]. *)
Definition A2 : registry.Key.t := entry "nodeA2" "worker" "10.0.0.1:7000" ∅.

End scenario.

(** ** Package [members], continued: [Config], its options and [Build] *)
Module config.

(** An [io.Writer], by the identity of the writer; [None] is the nil
    interface. *)
Definition Writer : Type := nat.

(** [type Config struct]; a port is an [int], the timeout a
    [time.Duration] (an [int64] of nanoseconds), a nil slice is [[]]. *)
Record Config := {
  peerType : members.PeerType;
  nodeName : string;
  apiAddr : string;
  apiPort : Z;
  bindAddr : string;
  bindPort : Z;
  advertiseAddr : string;
  advertisePort : Z;
  clientAddr : string;
  clientPort : Z;
  existing : list string;
  logOutput : option Writer;
  broadcastTimeout : Z
}.

(** [Config{}] *)
Definition zero : Config :=
  {| peerType := ""; nodeName := ""; apiAddr := ""; apiPort := 0;
     bindAddr := ""; bindPort := 0; advertiseAddr := ""; advertisePort := 0;
     clientAddr := ""; clientPort := 0; existing := []; logOutput := None;
     broadcastTimeout := 0 |}.

(** [type Option], a function on a pointer to a [Config] that returns an
    error: the configuration as the option leaves it, and the error. *)
Definition Option : Type := Config → Config * option error.

(** The loop of [Build]: the options in order on one configuration; the
    first error ends it with [Config{}] and that error. *)
Fixpoint applyAll (opts : list Option) (config : Config)
  : Config * option error :=
  match opts with
  | [] => (config, None)
  | opt :: rest =>
      let '(config', err) := opt config in
      match err with
      | Some e => (zero, Some e)
      | None => applyAll rest config'
      end
  end.

(** [Build]: [var config Config], then the loop. *)
Definition Build (opts : list Option) : Config * option error :=
  applyAll opts zero.

(** [WithPeerType] adds a PeerType to the configuration. *)
Definition WithPeerType (peerType : members.PeerType) : Option :=
  λ config,
    ({| peerType := peerType; nodeName := nodeName config;
       apiAddr := apiAddr config; apiPort := apiPort config;
       bindAddr := bindAddr config; bindPort := bindPort config;
       advertiseAddr := advertiseAddr config;
       advertisePort := advertisePort config;
       clientAddr := clientAddr config; clientPort := clientPort config;
       existing := existing config; logOutput := logOutput config;
       broadcastTimeout := broadcastTimeout config |},
     None).

(** [WithNodeName] adds a NodeName to the configuration. *)
Definition WithNodeName (nodeName : string) : Option :=
  λ config,
    ({| peerType := peerType config; nodeName := nodeName;
       apiAddr := apiAddr config; apiPort := apiPort config;
       bindAddr := bindAddr config; bindPort := bindPort config;
       advertiseAddr := advertiseAddr config;
       advertisePort := advertisePort config;
       clientAddr := clientAddr config; clientPort := clientPort config;
       existing := existing config; logOutput := logOutput config;
       broadcastTimeout := broadcastTimeout config |},
     None).

(** [WithAPIAddrPort] adds an APIAddr and APIPort. *)
Definition WithAPIAddrPort (addr : string) (port : Z) : Option :=
  λ config,
    ({| peerType := peerType config; nodeName := nodeName config;
       apiAddr := addr; apiPort := port; bindAddr := bindAddr config;
       bindPort := bindPort config;
       advertiseAddr := advertiseAddr config;
       advertisePort := advertisePort config;
       clientAddr := clientAddr config; clientPort := clientPort config;
       existing := existing config; logOutput := logOutput config;
       broadcastTimeout := broadcastTimeout config |},
     None).

(** [WithBindAddrPort] adds a BindAddr and BindPort. *)
Definition WithBindAddrPort (addr : string) (port : Z) : Option :=
  λ config,
    ({| peerType := peerType config; nodeName := nodeName config;
       apiAddr := apiAddr config; apiPort := apiPort config;
       bindAddr := addr; bindPort := port;
       advertiseAddr := advertiseAddr config;
       advertisePort := advertisePort config;
       clientAddr := clientAddr config; clientPort := clientPort config;
       existing := existing config; logOutput := logOutput config;
       broadcastTimeout := broadcastTimeout config |},
     None).

(** [WithAdvertiseAddrPort] adds an AdvertiseAddr and AdvertisePort. *)
Definition WithAdvertiseAddrPort (addr : string) (port : Z) : Option :=
  λ config,
    ({| peerType := peerType config; nodeName := nodeName config;
       apiAddr := apiAddr config; apiPort := apiPort config;
       bindAddr := bindAddr config; bindPort := bindPort config;
       advertiseAddr := addr; advertisePort := port;
       clientAddr := clientAddr config; clientPort := clientPort config;
       existing := existing config; logOutput := logOutput config;
       broadcastTimeout := broadcastTimeout config |},
     None).

(** [WithClientAddrPort] adds a ClientAddr and ClientPort. *)
Definition WithClientAddrPort (addr : string) (port : Z) : Option :=
  λ config,
    ({| peerType := peerType config; nodeName := nodeName config;
       apiAddr := apiAddr config; apiPort := apiPort config;
       bindAddr := bindAddr config; bindPort := bindPort config;
       advertiseAddr := advertiseAddr config;
       advertisePort := advertisePort config; clientAddr := addr;
       clientPort := port; existing := existing config;
       logOutput := logOutput config;
       broadcastTimeout := broadcastTimeout config |},
     None).

(** [WithExisting] adds the existing peers. *)
Definition WithExisting (existing : list string) : Option :=
  λ config,
    ({| peerType := peerType config; nodeName := nodeName config;
       apiAddr := apiAddr config; apiPort := apiPort config;
       bindAddr := bindAddr config; bindPort := bindPort config;
       advertiseAddr := advertiseAddr config;
       advertisePort := advertisePort config;
       clientAddr := clientAddr config; clientPort := clientPort config;
       existing := existing; logOutput := logOutput config;
       broadcastTimeout := broadcastTimeout config |},
     None).

(** [WithLogOutput] adds a LogOutput. *)
Definition WithLogOutput (logOutput : option Writer) : Option :=
  λ config,
    ({| peerType := peerType config; nodeName := nodeName config;
       apiAddr := apiAddr config; apiPort := apiPort config;
       bindAddr := bindAddr config; bindPort := bindPort config;
       advertiseAddr := advertiseAddr config;
       advertisePort := advertisePort config;
       clientAddr := clientAddr config; clientPort := clientPort config;
       existing := existing config; logOutput := logOutput;
       broadcastTimeout := broadcastTimeout config |},
     None).

(** [WithBroadcastTimeout] adds a BroadcastTimeout. *)
Definition WithBroadcastTimeout (d : Z) : Option :=
  λ config,
    ({| peerType := peerType config; nodeName := nodeName config;
       apiAddr := apiAddr config; apiPort := apiPort config;
       bindAddr := bindAddr config; bindPort := bindPort config;
       advertiseAddr := advertiseAddr config;
       advertisePort := advertisePort config;
       clientAddr := clientAddr config; clientPort := clientPort config;
       existing := existing config; logOutput := logOutput config;
       broadcastTimeout := d |},
     None).

(** The options the package offers. *)
Inductive Offered : Option → Prop :=
| OfferedPeerType p : Offered (WithPeerType p)
| OfferedNodeName n : Offered (WithNodeName n)
| OfferedAPIAddrPort a p : Offered (WithAPIAddrPort a p)
| OfferedBindAddrPort a p : Offered (WithBindAddrPort a p)
| OfferedAdvertiseAddrPort a p : Offered (WithAdvertiseAddrPort a p)
| OfferedClientAddrPort a p : Offered (WithClientAddrPort a p)
| OfferedExisting l : Offered (WithExisting l)
| OfferedLogOutput w : Offered (WithLogOutput w)
| OfferedBroadcastTimeout d : Offered (WithBroadcastTimeout d).

(** An option that fails, as a caller may write one. *)
Definition failing (e : error) : Option := λ config, (config, Some e).

End config.

(** ** Package [registry] ([pkg/registry]), continued: the query *)
Module services.

Definition defaultContentType : string := "application/json".

(** [http.Header] and [url.Values] are maps from a key to its values;
    [Get] is the first value under the key, or the empty string. *)
Definition Get (m : gmap string (list string)) (key : string) : string :=
  match m !! key with
  | Some (v :: _) => v
  | _ => ""
  end.

(** [type ServicesParams struct { Type members.PeerType }] *)
Record ServicesParams := { Type' : members.PeerType }.

(** What [handleServices] does with the request: the one method of
    [a.errors] it calls with its message, or [EncodeTo] on the result. *)
Inductive Outcome :=
| BadRequest (err : error)
| InternalServerError (err : error)
| NotFound
| EncodeTo (params : ServicesParams)
           (services : gmap members.PeerType (list string)).

Section WithCluster.

(** Package [cluster] is not among the sources: its constant
    [PeerTypeAny], its function [ParsePeerType] and the method [Current]
    of its [Peer] are parameters, and so is the [%q] of the error
    message. *)
Variable PeerTypeAny : members.PeerType.
Variable ParsePeerType : string → members.PeerType * option error.
Variable Current :
  members.PeerType → gmap members.PeerType (list string) * option error.
Variable quoted : string → string.

(** [DecodeFrom]: the receiver [p] as the call leaves it, and [err]. *)
Definition DecodeFrom (p : ServicesParams)
  (headers values : gmap string (list string))
  : ServicesParams * option error :=
  let accept := Get headers "Accept" in
  if bool_decide (accept ≠ "" ∧ accept ≠ defaultContentType)
  then (p, Some (Errorf ("expected " +:+ quoted defaultContentType
                         +:+ " content-type, got " +:+ quoted accept)))
  else
    let typ := Get values "type" in
    if bool_decide (typ = "")
    then ({| Type' := PeerTypeAny |}, None)
    else
      let '(t, err) := ParsePeerType typ in
      ({| Type' := t |}, err).

(** [handleServices], from the request's headers and query values. *)
Definition handleServices (headers values : gmap string (list string))
  : Outcome :=
  let '(params, err) := DecodeFrom {| Type' := "" |} headers values in
  match err with
  | Some e => BadRequest e
  | None =>
      let '(services, err) := Current (Type' params) in
      match err with
      | Some e => InternalServerError e
      | None =>
          if bool_decide (Type' params ≠ PeerTypeAny)
          then
            match services !! Type' params with
            | Some (_ :: _) => EncodeTo params services
            | _ => NotFound
            end
          else EncodeTo params services
      end
  end.

End WithCluster.

End services.

(** ** Members for the examples: the members behind [scenario.A] and
    [scenario.B] *)
Module peers.

Definition memberA : members.Member.t :=
  {| members.Member.Name := "nodeA";
     members.Member.Address := "10.0.0.1:7000";
     members.Member.PeerType := "worker";
     members.Member.Tags := ∅ |}.

Definition memberB : members.Member.t :=
  {| members.Member.Name := "nodeB";
     members.Member.Address := "10.0.0.2:7000";
     members.Member.PeerType := "worker";
     members.Member.Tags := ∅ |}.

(** The member behind [scenario.A], announced again with a tag. *)
Definition memberA' : members.Member.t :=
  {| members.Member.Name := "nodeA";
     members.Member.Address := "10.0.0.1:7000";
     members.Member.PeerType := "worker";
     members.Member.Tags := {[ "zone" := "eu" ]} |}.

(** A member event of the given kind. *)
Definition memberEvent (kind : members.MemberEventType)
  (batch : list members.Member.t) : members.Event.t :=
  {| members.Event.Type' := members.EventMember;
     members.Event.asMemberEvent :=
       Some {| members.MemberEvent.EventType := kind;
               members.MemberEvent.Members := batch |} |}.

End peers.

(** * Properties *)

(** ** Examples *)

Example Itoa_7000 : strconv.Itoa 7000 = "7000"%string.
Proof. reflexivity. Qed.

Example Itoa_neg : strconv.Itoa (-42) = "-42"%string.
Proof. reflexivity. Qed.

Example Atoi_plus : strconv.Atoi "+15" = (15, None).
Proof. reflexivity. Qed.

Example Atoi_bad :
  strconv.Atoi "7x" = (0, Some (NumError "Atoi" "7x" ErrSyntax)).
Proof. reflexivity. Qed.

(** The range error comes at the digit that overflows, before the byte
    that is no digit is reached. *)
Example Atoi_overflow_then_letter :
  strconv.Atoi "99999999999999999999x"
  = (strconv.maxInt, Some (NumError "Atoi" "99999999999999999999x" ErrRange))
  ∧ strconv.Atoi "-99999999999999999999x"
    = (strconv.minInt,
       Some (NumError "Atoi" "-99999999999999999999x" ErrRange))
  ∧ strconv.Atoi "9223372036854775808"
    = (strconv.maxInt, Some (NumError "Atoi" "9223372036854775808" ErrRange))
  ∧ strconv.Atoi "-9223372036854775808" = (strconv.minInt, None)
  ∧ strconv.Atoi "-" = (0, Some (NumError "Atoi" "-" ErrSyntax))
  ∧ strconv.Atoi "" = (0, Some (NumError "Atoi" "" ErrSyntax)).
Proof. repeat split. Qed.

(** ** [strconv]: [Atoi] reads back what [Itoa] writes *)
Section StrconvTheory.
Import strconv.

Lemma digitOf_spec (d : Z) :
  0 <= d < 10 → isDigit (digitOf d) = true ∧ digitVal (digitOf d) = d.
Proof.
  intros Hd.
  assert (Hc : d = 0 ∨ d = 1 ∨ d = 2 ∨ d = 3 ∨ d = 4 ∨ d = 5 ∨ d = 6
               ∨ d = 7 ∨ d = 8 ∨ d = 9) by lia.
  repeat (destruct Hc as [-> | Hc]; [by vm_compute |]).
  subst d. by vm_compute.
Qed.

Lemma isDigit_not_sign (c : ascii) :
  isDigit c = true → Ascii.eqb c "-" = false ∧ Ascii.eqb c "+" = false.
Proof.
  intros Hc. split; apply Ascii.eqb_neq; intros ->; by vm_compute in Hc.
Qed.

Lemma digits_formatBits (fuel : nat) :
  ∀ u acc, 0 <= u < 10 ^ Z.of_nat fuel →
    ∃ k, 0 <= k ∧
         ∀ n, digits (formatBits fuel u acc) n = digits acc (n * 10 ^ k + u).
Proof.
  induction fuel as [| fuel IH]; intros u acc Hu.
  - exists 0. split; [lia |]. intros n. cbn in *.
    f_equal; lia.
  - cbn [formatBits].
    destruct (digitOf_spec (u mod 10)) as [Hdig Hval];
      [apply Z.mod_pos_bound; lia |].
    destruct (Z.ltb_spec u 10) as [Hlt | Hge].
    + exists 1. split; [lia |]. intros n. cbn [digits].
      rewrite Hdig, Hval. rewrite Z.mod_small by lia.
      f_equal; lia.
    + assert (Hq : 0 <= u / 10 < 10 ^ Z.of_nat fuel).
      { split; [apply Z.div_pos; lia |].
        apply Z.div_lt_upper_bound; [lia |].
        rewrite Nat2Z.inj_succ, Z.pow_succ_r in Hu by lia. lia. }
      destruct (IH (u / 10) (String (digitOf (u mod 10)) acc) Hq)
        as (k & Hk & Heq).
      exists (k + 1). split; [lia |]. intros n.
      rewrite Heq. cbn [digits]. rewrite Hdig, Hval.
      f_equal. rewrite Z.pow_add_r by lia.
      pose proof (Z.div_mod u 10). lia.
Qed.

Lemma formatBits_head (fuel : nat) :
  ∀ u acc, 0 <= u →
    ∃ c rest, formatBits (S fuel) u acc = String c rest ∧ isDigit c = true.
Proof.
  induction fuel as [| fuel IH]; intros u acc Hu.
  - cbn [formatBits].
    destruct (digitOf_spec (u mod 10)) as [Hdig _];
      [apply Z.mod_pos_bound; lia |].
    destruct (u <? 10); eauto.
  - change (formatBits (S (S fuel)) u acc)
      with (let acc' := String (digitOf (u mod 10)) acc in
            if u <? 10 then acc' else formatBits (S fuel) (u / 10) acc').
    cbv zeta.
    destruct (digitOf_spec (u mod 10)) as [Hdig _];
      [apply Z.mod_pos_bound; lia |].
    destruct (Z.ltb_spec u 10); [eauto |].
    apply IH. apply Z.div_pos; lia.
Qed.

Lemma digitsBound_spec (u : Z) :
  0 <= u → u < 10 ^ Z.of_nat (digitsBound u).
Proof.
  intros Hu. unfold digitsBound.
  rewrite Nat2Z.inj_succ, Z2Nat.id by apply Z.log2_nonneg.
  destruct (decide (u = 0)) as [-> | Hne]; [by vm_compute |].
  pose proof (Z.log2_spec u ltac:(lia)) as [_ Hlt].
  eapply Z.lt_le_trans; [exact Hlt |].
  apply Z.pow_le_mono_l. pose proof (Z.log2_nonneg u). lia.
Qed.

Lemma digits_Itoa_body (u : Z) :
  0 <= u →
  digits (formatBits (digitsBound u) u "") 0 = Some u
  ∧ ∃ c rest, formatBits (digitsBound u) u "" = String c rest
              ∧ isDigit c = true.
Proof.
  intros Hu. split.
  - destruct (digits_formatBits (digitsBound u) u "")
      as (k & _ & Heq); [split; [done | by apply digitsBound_spec] |].
    rewrite Heq. cbn. f_equal; lia.
  - by apply formatBits_head.
Qed.

Lemma isDigit_digitVal (c : ascii) :
  isDigit c = true → 0 <= digitVal c <= 9.
Proof.
  unfold isDigit, digitVal. intros [Hlo Hhi]%andb_true_iff.
  apply Nat.leb_le in Hlo, Hhi. lia.
Qed.

Lemma digits_le (s : string) :
  ∀ n v, 0 <= n → digits s n = Some v → n <= v.
Proof.
  induction s as [| c s IH]; intros n v Hn; cbn [digits].
  - intros [= <-]. lia.
  - destruct (isDigit c) eqn:Hc; [| done].
    pose proof (isDigit_digitVal c Hc). intros Hv.
    apply IH in Hv; lia.
Qed.

(** Below [maxUint64] the loop of [ParseUint] ends with the number the
    digits stand for. *)
Lemma parseUint_digits (s : string) :
  ∀ n v, 0 <= n → digits s n = Some v → v <= maxUint64 →
         parseUint s n = ScanValue v.
Proof.
  assert (Hmax : maxUint64 = 18446744073709551615) by reflexivity.
  assert (Hcut : cutoff = 1844674407370955162) by reflexivity.
  induction s as [| c s IH]; intros n v Hn; cbn [digits parseUint].
  - by intros [= <-].
  - destruct (isDigit c) eqn:Hc; [| done].
    pose proof (isDigit_digitVal c Hc) as Hd. intros Hv Hle.
    assert (Hn1 : 0 <= n * 10 + digitVal c) by lia.
    pose proof (digits_le s _ v Hn1 Hv) as Hstep.
    destruct (Z.leb_spec cutoff n); [lia |].
    cbv zeta. destruct (Z.ltb_spec maxUint64 (n * 10 + digitVal c)); [lia |].
    apply IH; [lia | done | done].
Qed.

Lemma Atoi_Itoa (i : Z) : isInt i → Atoi (Itoa i) = (i, None).
Proof.
  assert (Hmax : maxUint64 = 18446744073709551615) by reflexivity.
  assert (Hmin : minInt = -9223372036854775808) by reflexivity.
  assert (Hmaxi : maxInt = 9223372036854775807) by reflexivity.
  intros [Hlo Hhi]. unfold Itoa.
  destruct (Z.ltb_spec i 0) as [Hneg | Hpos].
  - destruct (digits_Itoa_body (- i)) as (Hd & c & rest & Hs & Hc);
      [lia |].
    apply parseUint_digits in Hd; [| lia | lia].
    unfold Atoi. rewrite Ascii.eqb_refl, Hs.
    rewrite <- Hs, Hd. cbn [negb andb].
    destruct (Z.ltb_spec (- minInt) (- i)); [lia |].
    f_equal; lia.
  - destruct (digits_Itoa_body i) as (Hd & c & rest & Hs & Hc); [lia |].
    apply parseUint_digits in Hd; [| lia | lia].
    destruct (isDigit_not_sign c Hc) as [Hm Hp].
    unfold Atoi. rewrite Hs, Hm, Hp. rewrite <- Hs, Hd. cbn [negb andb].
    destruct (Z.leb_spec (- minInt) i); [lia |].
    done.
Qed.

End StrconvTheory.

(** ** [members]: the peer-information tags *)
Section PeerInfoTagTheory.
Import members.

Variable PeerTypeTag : string.

(** The map literal of [encodePeerInfoTag] has four keys; Go compiles it
    only when the constant keys are pairwise distinct. *)
Hypothesis tag_not_name : PeerTypeTag ≠ "name".
Hypothesis tag_not_addr : PeerTypeTag ≠ "api_addr".
Hypothesis tag_not_port : PeerTypeTag ≠ "api_port".

Lemma encodePeerInfoTag_lookups (info : PeerInfo.t) :
  let m := encodePeerInfoTag PeerTypeTag info in
  m !! "name" = Some (PeerInfo.Name info)
  ∧ m !! PeerTypeTag = Some (PeerInfo.PeerType info)
  ∧ m !! "api_port" = Some (strconv.Itoa (PeerInfo.APIPort info))
  ∧ m !! "api_addr" = Some (PeerInfo.APIAddr info).
Proof.
  unfold encodePeerInfoTag, PeerType_String. cbv zeta.
  repeat split; by simplify_map_eq.
Qed.

(** C10: decoding the tags that [encodePeerInfoTag] wrote for a peer gives
    the peer back, with a nil error, whatever its name, type and address
    and for every port within [int]. *)
Theorem decode_encode_PeerInfoTag (info : PeerInfo.t) :
  strconv.isInt (PeerInfo.APIPort info) →
  decodePeerInfoTag PeerTypeTag (encodePeerInfoTag PeerTypeTag info)
  = (info, None).
Proof.
  intros Hport.
  destruct (encodePeerInfoTag_lookups info) as (Hn & Ht & Hp & Ha).
  unfold decodePeerInfoTag.
  rewrite Hn, Ht, Hp, Ha, (Atoi_Itoa _ Hport).
  by destruct info.
Qed.

End PeerInfoTagTheory.

(** The round trip for a worker on port 7000, under the tag ["peer_type"]. *)
Lemma decode_encode_PeerInfoTag_witness :
  let info := {| members.PeerInfo.Name := "nodeA";
                 members.PeerInfo.PeerType := "worker";
                 members.PeerInfo.APIAddr := "10.0.0.1";
                 members.PeerInfo.APIPort := 7000 |} in
  strconv.isInt (members.PeerInfo.APIPort info)
  ∧ members.decodePeerInfoTag "peer_type"
      (members.encodePeerInfoTag "peer_type" info) = (info, None).
Proof.
  cbv zeta.
  assert (Hport : strconv.isInt 7000) by (by vm_compute).
  split; [exact Hport |].
  by apply (decode_encode_PeerInfoTag "peer_type").
Defined.

(** ** The ring *)
Section HashRingTheory.
Context `{!hashring.Layout}.
Import hashring.

Lemma elem_of_place (p q : N * string) (ps : list (N * string)) :
  q ∈ place p ps ↔ q = p ∨ q ∈ ps.
Proof.
  induction ps as [| x ps IH]; cbn [place].
  - rewrite list_elem_of_singleton, elem_of_nil. tauto.
  - destruct (before p x).
    + by rewrite elem_of_cons.
    + rewrite !elem_of_cons, IH. tauto.
Qed.

Lemma elem_of_foldl_place (q : N * string) (new : list (N * string)) :
  ∀ ps, q ∈ foldl (λ ps p, place p ps) ps new ↔ q ∈ new ∨ q ∈ ps.
Proof.
  induction new as [| p new IH]; intros ps; cbn [foldl].
  - rewrite elem_of_nil. tauto.
  - rewrite IH, elem_of_place, elem_of_cons. tauto.
Qed.

Lemma Contains_true (ring : HashRing) (addr : string) :
  Contains ring addr = true ↔ ∃ p, p ∈ positions ring ∧ p.2 = addr.
Proof.
  unfold Contains. rewrite existsb_exists. split.
  - intros (p & Hin & Heq). exists p.
    by rewrite list_elem_of_In, <- String.eqb_eq.
  - intros (p & Hin & Heq). exists p.
    by rewrite <- list_elem_of_In, String.eqb_eq.
Qed.

Lemma Contains_false (ring : HashRing) (addr : string) :
  Contains ring addr = false ↔ ∀ p, p ∈ positions ring → p.2 ≠ addr.
Proof.
  rewrite <- not_true_iff_false, Contains_true. split.
  - intros Hno p Hin Hp. apply Hno. by exists p.
  - intros Hall (p & Hin & Hp). by apply (Hall p).
Qed.

Lemma elem_of_virtualPositions (ring : HashRing) (addr : string)
  (q : N * string) :
  q ∈ virtualPositions ring addr → q.2 = addr.
Proof.
  unfold virtualPositions. rewrite list_elem_of_fmap.
  by intros (i & -> & _).
Qed.

Lemma virtualPositions_first (ring : HashRing) (addr : string) :
  1 <= replicationFactor ring →
  (hashFn ring (virtualKey addr 0), addr) ∈ virtualPositions ring addr.
Proof.
  intros HR. unfold virtualPositions.
  apply (list_elem_of_fmap_2 (λ i, (hashFn ring (virtualKey addr i), addr))).
  apply elem_of_seq. lia.
Qed.

Lemma Add_positions (ring : HashRing) (addr : string) (q : N * string) :
  q ∈ positions (Add ring addr).1 ↔
  q ∈ positions ring
  ∨ (Contains ring addr = false ∧ q ∈ virtualPositions ring addr).
Proof.
  unfold Add. destruct (Contains ring addr) eqn:Hc; cbn.
  - split; [by left | by intros [? | [? _]]].
  - rewrite elem_of_foldl_place. split.
    + intros [? | ?]; [by right | by left].
    + intros [? | [_ ?]]; [by right | by left].
Qed.

Lemma Add_fields (ring : HashRing) (addr : string) :
  hashFn (Add ring addr).1 = hashFn ring
  ∧ replicationFactor (Add ring addr).1 = replicationFactor ring.
Proof. unfold Add. by destruct (Contains ring addr). Qed.

(** With at least one virtual node per address, an added address is in
    the ring. *)
Lemma Add_Contains (ring : HashRing) (addr : string) :
  1 <= replicationFactor ring → Contains (Add ring addr).1 addr = true.
Proof.
  intros HR. destruct (Contains ring addr) eqn:Hc.
  - unfold Add. by rewrite Hc.
  - apply Contains_true.
    exists (hashFn ring (virtualKey addr 0), addr). split; [| done].
    apply Add_positions. right. split; [done |].
    by apply virtualPositions_first.
Qed.

(** Adding an address leaves the membership of every other one as it was. *)
Lemma Add_Contains_other (ring : HashRing) (addr other : string) :
  other ≠ addr → Contains (Add ring addr).1 other = Contains ring other.
Proof.
  intros Hne. apply eq_true_iff_eq. rewrite !Contains_true. split.
  - intros (p & [Hin | [_ Hin]]%Add_positions & Hp); [eauto |].
    apply elem_of_virtualPositions in Hin. congruence.
  - intros (p & Hin & Hp). exists p. split; [| done].
    apply Add_positions. by left.
Qed.

Lemma Remove_positions (ring : HashRing) (addr : string) (q : N * string) :
  q ∈ positions (Remove ring addr).1 ↔ q ∈ positions ring ∧ q.2 ≠ addr.
Proof. unfold Remove. cbn. rewrite list_elem_of_filter. tauto. Qed.

(** A removed address is gone from the ring, whatever was there. *)
Lemma Remove_Contains (ring : HashRing) (addr : string) :
  Contains (Remove ring addr).1 addr = false.
Proof.
  apply Contains_false. intros p Hp. by apply Remove_positions in Hp as [_ ?].
Qed.

Lemma Remove_Contains_other (ring : HashRing) (addr other : string) :
  other ≠ addr → Contains (Remove ring addr).1 other = Contains ring other.
Proof.
  intros Hne. apply eq_true_iff_eq. rewrite !Contains_true.
  split; intros (p & Hin & Hp); exists p; (split; [| done]).
  - by apply Remove_positions in Hin as [? _].
  - apply Remove_positions. split; [done | congruence].
Qed.

(** The walk calls the visitor on every position unless an earlier call
    failed; a visitor that never fails is folded over the positions. *)
Lemma Walk_no_error {S : Type} (step : string → string → S → S)
  (ring : HashRing) (s : S) :
  Walk ring (λ hash addr s, (step hash addr s, None)) s
  = (foldl (λ s p, step (positionKey p.1) p.2 s) s (positions ring), None).
Proof.
  unfold Walk. generalize (positions ring) as ps. intros ps. revert s.
  induction ps as [| p ps IH]; intros s; [done |].
  cbn [walkFrom foldl]. by rewrite IH.
Qed.

End HashRingTheory.

(** ** The registry *)
Section RegistryTheory.
Context `{!hashring.Layout}.
Import registry.

(** What the visitor of [Info] has collected after a walk over [ps]. *)
Local Abbreviation collected m ps :=
  (foldl (λ (hashes : gmap string string) (p : N * string),
            <[hashring.positionKey p.1 := p.2]> hashes) m ps).

Lemma collected_lookup (ps : list (N * string)) :
  ∀ (m : gmap string string) h a,
    collected m ps !! h = Some a →
    m !! h = Some a
    ∨ ∃ p, p ∈ ps ∧ hashring.positionKey p.1 = h ∧ p.2 = a.
Proof.
  induction ps as [| q ps IH]; intros m h a Hl; cbn [foldl] in Hl.
  - by left.
  - apply IH in Hl as [Hl | (p & Hin & Hp)].
    + destruct (decide (hashring.positionKey q.1 = h)) as [Heq | Hne].
      * rewrite <- Heq, lookup_insert_eq in Hl. injection Hl as <-.
        right. exists q. split; [apply elem_of_cons; by left | done].
      * rewrite lookup_insert_ne in Hl by done. by left.
    + right. exists p. split; [apply elem_of_cons; by right | done].
Qed.

(** The collected map has an address among its values exactly when a
    position of the address is the last one visited under its key, or the
    map had the address before under a key that no position has. *)
Lemma collected_value (ps : list (N * string)) (a : string) :
  ∀ m : gmap string string,
    (∃ h, collected m ps !! h = Some a) ↔
    lastUnderKey ps a = true
    ∨ ∃ h, m !! h = Some a
           ∧ ∀ q, q ∈ ps → hashring.positionKey q.1 ≠ h.
Proof.
  induction ps as [| p ps IH]; intros m; cbn [foldl lastUnderKey].
  - split.
    + intros [h Hh]. right. exists h. split; [done |].
      by intros q ?%elem_of_nil.
    + intros [? | (h & Hh & _)]; [done | by exists h].
  - rewrite IH, orb_true_iff, andb_true_iff, String.eqb_eq, forallb_forall.
    assert (Hfresh :
      (∀ q, In q ps →
            negb (String.eqb (hashring.positionKey q.1)
                             (hashring.positionKey p.1)) = true)
      ↔ ∀ q, q ∈ ps → hashring.positionKey q.1 ≠ hashring.positionKey p.1).
    { split; intros Hall q Hq.
      - apply String.eqb_neq, negb_true_iff, Hall. by apply list_elem_of_In.
      - apply negb_true_iff, String.eqb_neq, Hall. by apply list_elem_of_In. }
    rewrite Hfresh. split.
    + intros [Hlast | (h & Hh & Hps)]; [by left; right |].
      destruct (decide (hashring.positionKey p.1 = h)) as [<- | Hne].
      * rewrite lookup_insert_eq in Hh. injection Hh as Hp.
        left. left. by split.
      * rewrite lookup_insert_ne in Hh by done. right. exists h.
        split; [done |]. intros q [-> | Hq]%elem_of_cons; [done |].
        by apply Hps.
    + intros [[[Hp Hps] | Hlast] | (h & Hh & Hps)]; [| by left |].
      * right. exists (hashring.positionKey p.1).
        by rewrite lookup_insert_eq, Hp.
      * right. exists h. split.
        -- rewrite lookup_insert_ne; [done |].
           apply Hps, elem_of_cons. by left.
        -- intros q Hq. apply Hps, elem_of_cons. by right.
Qed.

Lemma Info_no_ring (r : real) (s : string) :
  hashRings r !! s = None → Info r s = (Info.zero, false).
Proof. intros Hr. unfold Info, InfoWith. by rewrite Hr. Qed.

(** [Info] on a category that has a ring. *)
Lemma Info_ring (r : real) (s : string) (ring : hashring.HashRing) :
  hashRings r !! s = Some ring →
  Info r s
  = ({| Info.Hashes := collected ∅ (hashring.positions ring);
        Info.Keys :=
          foldl (flatten r) ∅
                (map_to_list (collected ∅ (hashring.positions ring))).*2 |},
     true).
Proof.
  intros Hr. unfold Info, InfoWith. rewrite Hr. unfold collect.
  by rewrite (Walk_no_error
                (λ hash addr (hashes : gmap string string),
                   <[hash := addr]> hashes)).
Qed.

(** The copies of [a] among the values [vs] the second loop ranges over. *)
Local Abbreviation copies a vs := (length (filter (λ v : string, v = a) vs)).

Lemma flatten_lookup (r : real) (keys0 : gmap string (list Key.t))
  (v a : string) :
  flatten r keys0 v !! a
  = if decide (v = a ∧ getKeysByAddress r a ≠ [])
    then Some (default [] (keys0 !! a) ++ getKeysByAddress r a)
    else keys0 !! a.
Proof.
  unfold flatten. destruct (decide (v = a)) as [-> | Hne].
  - destruct (getKeysByAddress r a) as [| k ks].
    + rewrite bool_decide_eq_false_2 by (cbn; lia).
      by rewrite decide_False by tauto.
    + rewrite bool_decide_eq_true_2 by (cbn; lia).
      by rewrite lookup_insert_eq, decide_True.
  - rewrite decide_False by tauto.
    case_bool_decide; [by rewrite lookup_insert_ne | done].
Qed.

Lemma mjoin_cons {A : Type} (l : list A) (ls : list (list A)) :
  mjoin (l :: ls) = l ++ mjoin ls.
Proof. done. Qed.

Lemma copies_absent (a : string) (vs : list string) :
  a ∉ vs → filter (λ v, v = a) vs = [].
Proof.
  intros Hnot. apply elem_of_nil_inv. intros x Hx.
  by apply list_elem_of_filter in Hx as [-> Hx].
Qed.

(** The second loop of [Info]: each time the range meets the address [a],
    the whole row of [a] is appended once more. *)
Lemma foldl_flatten_lookup (r : real) (vs : list string) :
  ∀ (keys0 : gmap string (list Key.t)) (a : string),
    foldl (flatten r) keys0 vs !! a
    = if decide (a ∈ vs ∧ getKeysByAddress r a ≠ [])
      then Some (default [] (keys0 !! a)
                 ++ mjoin (replicate (copies a vs) (getKeysByAddress r a)))
      else keys0 !! a.
Proof.
  induction vs as [| v vs IH]; intros keys0 a; cbn [foldl].
  - case_decide as Hd; [| done]. destruct Hd as [Hd _].
    by apply elem_of_nil in Hd.
  - rewrite IH, flatten_lookup. clear IH.
    destruct (decide (getKeysByAddress r a = [])) as [Hrow | Hrow].
    { rewrite !decide_False by tauto. done. }
    destruct (decide (v = a)) as [-> | Hne].
    + rewrite filter_cons_True by done. cbn [length].
      rewrite replicate_S, mjoin_cons.
      rewrite (decide_True (P := a = a ∧ _)) by done.
      rewrite (decide_True (P := a ∈ a :: vs ∧ _))
        by (split; [apply elem_of_cons; by left | done]).
      case_decide as Hd.
      * f_equal. symmetry. apply app_assoc.
      * rewrite copies_absent by tauto. cbn [length replicate].
        change (mjoin (@nil (list Key.t))) with (@nil Key.t).
        by rewrite app_nil_r.
    + rewrite filter_cons_False by done.
      rewrite (decide_False (P := v = a ∧ _)) by tauto.
      destruct (decide (a ∈ vs)) as [Hin | Hnin].
      * rewrite !decide_True; [done | |]; (split; [| done]);
          [apply elem_of_cons; by right | done].
      * rewrite !decide_False; [done | |]; intros [Hin ?]; [| done].
        apply elem_of_cons in Hin as [? | ?]; [congruence | done].
Qed.

Lemma elem_of_values (m : gmap string string) (a : string) :
  a ∈ (map_to_list m).*2 ↔ ∃ h, m !! h = Some a.
Proof.
  rewrite list_elem_of_fmap. split.
  - intros ([h a'] & -> & Hin). exists h. by apply elem_of_map_to_list.
  - intros [h Hh]. exists (h, a). split; [done |].
    by apply elem_of_map_to_list.
Qed.

Lemma getKeysByAddress_entry (r : real) (addr name : string)
  (row : gmap string Key.t) (k : Key.t) :
  keys r !! addr = Some row → row !! name = Some k →
  k ∈ getKeysByAddress r addr.
Proof.
  intros Hrow Hk. unfold getKeysByAddress. rewrite Hrow.
  apply list_elem_of_fmap. exists (name, k). split; [done |].
  by apply elem_of_map_to_list.
Qed.

Lemma getKeysByAddress_elem (r : real) (addr : string) (k : Key.t) :
  k ∈ getKeysByAddress r addr ↔
  ∃ row name, keys r !! addr = Some row ∧ row !! name = Some k.
Proof.
  split.
  - unfold getKeysByAddress. destruct (keys r !! addr) as [row |].
    + intros ([name k'] & -> & Hin)%list_elem_of_fmap.
      exists row, name. split; [done |]. by apply elem_of_map_to_list.
    + by intros ?%elem_of_nil.
  - intros (row & name & Hrow & Hk). by eapply getKeysByAddress_entry.
Qed.

(** An address without index entries: its row is absent or empty. *)
Lemma getKeysByAddress_nil (r : real) (addr : string) :
  getKeysByAddress r addr = [] ↔
  keys r !! addr = None ∨ keys r !! addr = Some ∅.
Proof.
  unfold getKeysByAddress. destruct (keys r !! addr) as [row |].
  - split.
    + intros Hnil%fmap_nil_inv%map_to_list_empty_iff. right. by rewrite Hnil.
    + intros [? | [= ->]]; [done |]. by rewrite map_to_list_empty.
  - split; [by left | done].
Qed.


(** [Info] finds a category exactly when the category has a ring. *)
Lemma Info_found (r : real) (s : string) :
  (Info r s).2 = true ↔ is_Some (hashRings r !! s).
Proof.
  destruct (hashRings r !! s) as [ring |] eqn:Hr.
  - rewrite (Info_ring r s ring Hr). split; [by eexists | done].
  - rewrite (Info_no_ring r s Hr). split; [done | by intros [? ?]].
Qed.

(** The values of [Hashes] are addresses of the ring. *)
Lemma Info_Hashes_value (r : real) (s h a : string) :
  Info.Hashes (Info r s).1 !! h = Some a →
  ∃ ring p, hashRings r !! s = Some ring ∧ p ∈ hashring.positions ring
            ∧ hashring.positionKey p.1 = h ∧ p.2 = a.
Proof.
  destruct (hashRings r !! s) as [ring |] eqn:Hr.
  - rewrite (Info_ring r s ring Hr). cbn. intros Hl.
    apply collected_lookup in Hl as [Hl | (p & Hp)]; [done |].
    by exists ring, p.
  - by rewrite (Info_no_ring r s Hr).
Qed.

(** What [Info] reports under an address: the row of the address, once
    for every entry of [Hashes] whose value the address is. *)
Lemma Info_Keys_lookup (r : real) (s a : string) :
  let info := (Info r s).1 in
  let values := (map_to_list (Info.Hashes info)).*2 in
  Info.Keys info !! a
  = if decide (a ∈ values ∧ getKeysByAddress r a ≠ [])
    then Some (mjoin (replicate (copies a values) (getKeysByAddress r a)))
    else None.
Proof.
  cbv zeta. destruct (hashRings r !! s) as [ring |] eqn:Hr.
  - rewrite (Info_ring r s ring Hr). cbn [fst Info.Hashes Info.Keys].
    by rewrite foldl_flatten_lookup, lookup_empty.
  - rewrite (Info_no_ring r s Hr). cbn [fst Info.Hashes Info.Keys Info.zero].
    rewrite lookup_empty, map_to_list_empty.
    rewrite decide_False; [done |]. by intros [?%elem_of_nil _].
Qed.

Lemma Info_Keys_Some (r : real) (s a : string) (l : list Key.t) :
  Info.Keys (Info r s).1 !! a = Some l →
  (∃ h, Info.Hashes (Info r s).1 !! h = Some a)
  ∧ getKeysByAddress r a ≠ []
  ∧ ∃ n, l = getKeysByAddress r a ++ mjoin (replicate n (getKeysByAddress r a)).
Proof.
  rewrite Info_Keys_lookup. case_decide as Hd; [| done].
  destruct Hd as [Hin Hrow]. intros [= <-].
  split; [by apply elem_of_values |]. split; [done |].
  destruct (copies a (map_to_list (Info.Hashes (Info r s).1)).*2)
    as [| n] eqn:Hn.
  - apply nil_length_inv in Hn.
    assert (Ha : a ∈ filter (λ v, v = a)
                   (map_to_list (Info.Hashes (Info r s).1)).*2)
      by (by apply list_elem_of_filter).
    rewrite Hn in Ha. by apply elem_of_nil in Ha.
  - exists n. by rewrite replicate_S, mjoin_cons.
Qed.

(** *** The three mutations, unfolded *)

Local Abbreviation ringFor r key :=
  (default (hashring.New (hashFn r) (replicationFactor r))
           (hashRings r !! Key.Type' key)).

Lemma Add_unfold (r : real) (key : Key.t) :
  Add r key
  = (withState r
       (<[Key.Type' key := (hashring.Add (ringFor r key) (Key.Address key)).1]>
          (hashRings r))
       (<[Key.Address key :=
            <[Key.Name key := key]> (default ∅ (keys r !! Key.Address key))]>
          (keys r)),
     (hashring.Add (ringFor r key) (Key.Address key)).2).
Proof.
  unfold Add.
  destruct (hashRings r !! Key.Type' key), (keys r !! Key.Address key);
    cbn [default from_option id]; by destruct (hashring.Add _ _).
Qed.

Lemma Remove_hashRings (r : real) (key : Key.t) (c : string) :
  hashRings (Remove r key).1 !! c
  = if decide (c = Key.Type' key)
    then (λ ring, (hashring.Remove ring (Key.Address key)).1)
           <$> hashRings r !! c
    else hashRings r !! c.
Proof.
  unfold Remove. cbn [fst withState hashRings].
  case_decide as Hc.
  - subst c. destruct (hashRings r !! Key.Type' key) as [ring |] eqn:Hr.
    + by rewrite lookup_insert_eq.
    + by rewrite Hr.
  - destruct (hashRings r !! Key.Type' key); [| done].
    by rewrite lookup_insert_ne.
Qed.

Lemma Remove_keys (r : real) (key : Key.t) (a : string) :
  keys (Remove r key).1 !! a
  = if decide (a = Key.Address key)
    then delete (Key.Name key) <$> keys r !! a
    else keys r !! a.
Proof.
  unfold Remove. cbn [fst withState keys].
  case_decide as Ha.
  - subst a. destruct (keys r !! Key.Address key) as [row |] eqn:Hr.
    + by rewrite lookup_insert_eq.
    + by rewrite Hr.
  - destruct (keys r !! Key.Address key); [| done].
    by rewrite lookup_insert_ne.
Qed.

(** C5: [Remove] answers true in every state and for every entry, whether
    or not the category has a ring, the ring held the address or the index
    held the entry. *)
Theorem Remove_returns_true (r : real) (key : Key.t) :
  (Remove r key).2 = true.
Proof. reflexivity. Qed.

(** C6: when the category of an entry has a ring, after [Remove] that ring
    no longer contains the entry's address, and [Info] of the category
    lists the address neither among the values of [Hashes] nor among the
    keys of [Keys], whatever else was stored under the address. *)
Theorem Remove_evicts_address (r : real) (key : Key.t)
  (ring : hashring.HashRing) :
  hashRings r !! Key.Type' key = Some ring →
  let r' := (Remove r key).1 in
  let info := (Info r' (Key.Type' key)).1 in
  (∃ ring', hashRings r' !! Key.Type' key = Some ring'
            ∧ hashring.Contains ring' (Key.Address key) = false)
  ∧ (∀ h, Info.Hashes info !! h ≠ Some (Key.Address key))
  ∧ Info.Keys info !! Key.Address key = None.
Proof.
  intros Hring r' info.
  assert (Hring' : hashRings r' !! Key.Type' key
                   = Some (hashring.Remove ring (Key.Address key)).1).
  { unfold r'. by rewrite Remove_hashRings, decide_True, Hring. }
  assert (Hgone : ∀ h, Info.Hashes info !! h ≠ Some (Key.Address key)).
  { intros h Hh.
    apply Info_Hashes_value in Hh as (ring'' & p & Hr'' & Hp & _ & Haddr).
    rewrite Hring' in Hr''. injection Hr'' as <-.
    by apply Remove_positions in Hp as [_ Hp]. }
  split; [| split; [exact Hgone |]].
  - eexists. split; [exact Hring' |]. apply Remove_Contains.
  - destruct (Info.Keys info !! Key.Address key) as [l |] eqn:Hl; [| done].
    apply Info_Keys_Some in Hl as [[h Hh] _]. by apply Hgone in Hh.
Qed.

(** C9: in what [Info] returns with found = true, an address whose index
    row is absent or empty has no entry in [Keys], even when it is a value
    of [Hashes]; and [Keys] maps no address to an empty slice. *)
Theorem Info_Keys_never_empty (r : real) (s : string) (info : Info.t)
  (a : string) :
  Info r s = (info, true) →
  (keys r !! a = None ∨ keys r !! a = Some ∅ → Info.Keys info !! a = None)
  ∧ Info.Keys info !! a ≠ Some [].
Proof.
  intros Hinfo.
  assert (Heq : info = (Info r s).1) by (by rewrite Hinfo). subst info.
  split.
  - intros Hrow%getKeysByAddress_nil.
    destruct (Info.Keys (Info r s).1 !! a) as [l |] eqn:Hl; [| done].
    by apply Info_Keys_Some in Hl as (_ & Hne & _).
  - intros Hl. apply Info_Keys_Some in Hl as (_ & Hne & n & Hn).
    symmetry in Hn. by apply app_eq_nil in Hn as [? _].
Qed.

(** C7: [Info] answers found = false exactly when the category has no
    ring or the visitor of the ring walk returned an error; either way the
    result is [Info{}] with false.  The visitor that [Info] passes never
    returns an error, so for it only the first cause remains. *)
Theorem Info_not_found (visit : string → string → gmap string string
                                → gmap string string * option error)
  (r : real) (s : string) :
  ((InfoWith visit r s).2 = false ↔
     hashRings r !! s = None
     ∨ ∃ ring err, hashRings r !! s = Some ring
                   ∧ (hashring.Walk ring visit ∅).2 = Some err)
  ∧ ((InfoWith visit r s).2 = false →
     InfoWith visit r s = (Info.zero, false))
  ∧ ((Info r s).2 = false ↔ hashRings r !! s = None).
Proof.
  split; [| split].
  - unfold InfoWith. destruct (hashRings r !! s) as [ring |].
    + destruct (hashring.Walk ring visit ∅) as [hashes [err |]] eqn:Hw; cbn.
      * split; [| done]. intros _. right. exists ring, err.
        by rewrite Hw.
      * split; [done |]. intros [? | (? & ? & [= <-] & Herr)]; [done |].
        by rewrite Hw in Herr.
    + split; [by left | done].
  - unfold InfoWith. destruct (hashRings r !! s) as [ring |]; [| done].
    by destruct (hashring.Walk ring visit ∅) as [hashes [err |]].
  - rewrite <- not_true_iff_false, Info_found.
    rewrite <- eq_None_not_Some. done.
Qed.

(** C4: [Update] answers true exactly when the category has a ring that
    contains the address and the index row of the address has an entry
    under the name.  Then it writes the entry at that place and changes
    nothing else: no ring, no other row, no other name of the row.  When
    it answers false the registry is as it was. *)
Theorem Update_precondition (r : real) (key : Key.t) :
  let r' := (Update r key).1 in
  ((Update r key).2 = true ↔
     (∃ ring, hashRings r !! Key.Type' key = Some ring
              ∧ hashring.Contains ring (Key.Address key) = true)
     ∧ (∃ row, keys r !! Key.Address key = Some row
               ∧ is_Some (row !! Key.Name key)))
  ∧ ((Update r key).2 = true →
     hashRings r' = hashRings r
     ∧ hashFn r' = hashFn r
     ∧ replicationFactor r' = replicationFactor r
     ∧ (∀ a, a ≠ Key.Address key → keys r' !! a = keys r !! a)
     ∧ ∃ row, keys r !! Key.Address key = Some row
              ∧ keys r' !! Key.Address key
                = Some (<[Key.Name key := key]> row))
  ∧ ((Update r key).2 = false → r' = r).
Proof.
  cbv zeta. unfold Update.
  destruct (hashRings r !! Key.Type' key) as [ring |] eqn:Hring.
  2: { split; [| done]. split; [done |]. by intros [(? & ? & _) _]. }
  destruct (hashring.Contains ring (Key.Address key)) eqn:Hc; cbn [negb].
  2: { split; [| done]. split; [done |].
       intros [(? & [= <-] & ?) _]. congruence. }
  destruct (keys r !! Key.Address key) as [row |] eqn:Hrow.
  2: { split; [| done]. split; [done |]. by intros [_ (? & ? & _)]. }
  destruct (row !! Key.Name key) as [old |] eqn:Hold.
  2: { split; [| done]. split; [done |].
       intros [_ (? & [= <-] & [? ?])]. congruence. }
  cbn [fst snd withState hashRings keys hashFn replicationFactor].
  split; [| split; [| done]].
  - split; [| done]. intros _. split.
    + by exists ring.
    + exists row. split; [done |]. by exists old.
  - intros _. repeat split; [| exists row; split; [done |]].
    + intros a Ha. by rewrite lookup_insert_ne.
    + by rewrite lookup_insert_eq.
Qed.

(** *** What a mutation leaves alone *)

Lemma Add_hashRings (r : real) (key : Key.t) (c : string) :
  hashRings (Add r key).1 !! c
  = if decide (c = Key.Type' key)
    then Some (hashring.Add (ringFor r key) (Key.Address key)).1
    else hashRings r !! c.
Proof.
  rewrite Add_unfold. cbn [fst withState hashRings].
  case_decide as Hc.
  - subst c. by rewrite lookup_insert_eq.
  - by rewrite lookup_insert_ne.
Qed.

Lemma Add_keys (r : real) (key : Key.t) (a : string) :
  keys (Add r key).1 !! a
  = if decide (a = Key.Address key)
    then Some (<[Key.Name key := key]> (default ∅ (keys r !! a)))
    else keys r !! a.
Proof.
  rewrite Add_unfold. cbn [fst withState keys].
  case_decide as Ha.
  - subst a. by rewrite lookup_insert_eq.
  - by rewrite lookup_insert_ne.
Qed.

Lemma Update_hashRings (r : real) (key : Key.t) :
  hashRings (Update r key).1 = hashRings r.
Proof. unfold Update. by repeat case_match. Qed.


Lemma call_replicationFactor (r : real) (m : Mutation) :
  replicationFactor (call r m) = replicationFactor r.
Proof.
  destruct m as [key | key | key]; cbn [call].
  - by rewrite Add_unfold.
  - done.
  - unfold Update. by repeat case_match.
Qed.





(** Every ring of a registry carries the registry's replication factor:
    true of a new registry and kept by every call. *)
Local Abbreviation replicated R r :=
  (replicationFactor r = R
   ∧ ∀ c ring, hashRings r !! c = Some ring
               → hashring.replicationFactor ring = R).

Lemma ringFor_replicationFactor (R : Z) (r : real) (key : Key.t) :
  replicated R r → hashring.replicationFactor (ringFor r key) = R.
Proof.
  intros [HR Hrings].
  destruct (hashRings r !! Key.Type' key) as [ring |] eqn:Hring; cbn.
  - by eapply Hrings.
  - done.
Qed.

Lemma call_replicated (R : Z) (r : real) (m : Mutation) :
  replicated R r → replicated R (call r m).
Proof.
  intros Hinv. split; [rewrite call_replicationFactor; apply Hinv |].
  intros c ring. destruct m as [key | key | key]; cbn [call].
  - rewrite Add_hashRings. case_decide; [| apply Hinv].
    intros [= <-]. destruct (Add_fields (ringFor r key) (Key.Address key))
      as [_ ->].
    by apply ringFor_replicationFactor.
  - rewrite Remove_hashRings. case_decide; [| apply Hinv].
    destruct (hashRings r !! c) as [ring0 |] eqn:Hring0; [| done].
    intros [= <-]. cbn. by eapply Hinv.
  - rewrite Update_hashRings. apply Hinv.
Qed.

Lemma run_replicated (R : Z) (ms : list Mutation) :
  ∀ r, replicated R r → replicated R (run r ms).
Proof.
  unfold run. induction ms as [| m ms IH]; intros r Hinv; [done |].
  cbn [foldl]. by apply IH, call_replicated.
Qed.

Lemma New_replicated (h : string → N) (R : Z) : replicated R (New h R).
Proof.
  split; [done |]. intros c ring. cbn [New hashRings].
  by rewrite lookup_empty.
Qed.

(** [Info] reads the ring of the category and nothing else of the rings. *)
Lemma Info_same_ring (r r' : real) (s : string) :
  hashRings r' !! s = hashRings r !! s →
  (Info r' s).2 = (Info r s).2
  ∧ Info.Hashes (Info r' s).1 = Info.Hashes (Info r s).1.
Proof.
  intros Heq. destruct (hashRings r !! s) as [ring |] eqn:Hr.
  - by rewrite (Info_ring r s ring Hr), (Info_ring r' s ring Heq).
  - by rewrite (Info_no_ring r s Hr), (Info_no_ring r' s Heq).
Qed.

(** C1, as amended: in a registry made by [New] with a replication factor
    of at least 1 and changed by any calls, after [Add] of an entry the
    ring of its category contains the entry's address and [Info] of the
    category answers found = true; [Hashes] has the address among its
    values exactly when some position of the address is the last that the
    walk visits under its position key, and then [Keys] has, under the
    address, an entry of the entry's name. *)
Theorem Add_then_Info (h : string → N) (R : Z) (ms : list Mutation)
  (key : Key.t) :
  1 <= R →
  let r' := (Add (run (New h R) ms) key).1 in
  let info := (Info r' (Key.Type' key)).1 in
  ∃ ring,
    hashRings r' !! Key.Type' key = Some ring
    ∧ hashring.Contains ring (Key.Address key) = true
    ∧ (Info r' (Key.Type' key)).2 = true
    ∧ ((∃ hash, Info.Hashes info !! hash = Some (Key.Address key))
       ↔ visitedLast ring (Key.Address key) = true)
    ∧ (visitedLast ring (Key.Address key) = true →
       ∃ l k, Info.Keys info !! Key.Address key = Some l
              ∧ k ∈ l ∧ Key.Name k = Key.Name key).
Proof.
  intros HR r'. set (r := run (New h R) ms) in r'. intros info.
  assert (Hinv : replicated R r) by apply run_replicated, New_replicated.
  set (ring' := (hashring.Add (ringFor r key) (Key.Address key)).1).
  assert (Hring' : hashRings r' !! Key.Type' key = Some ring').
  { unfold r'. by rewrite Add_hashRings, decide_True. }
  assert (Hlisted : (∃ hash, Info.Hashes info !! hash = Some (Key.Address key))
                    ↔ visitedLast ring' (Key.Address key) = true).
  { unfold info. rewrite (Info_ring r' _ ring' Hring').
    cbn [fst Info.Hashes]. rewrite collected_value. unfold visitedLast.
    split; [| by left]. intros [? | (hash & Hhash & _)]; [done |].
    by rewrite lookup_empty in Hhash. }
  exists ring'. split; [exact Hring' |]. split.
  { apply Add_Contains. by rewrite (ringFor_replicationFactor R). }
  split; [apply Info_found; by rewrite Hring' |].
  split; [exact Hlisted |].
  intros [hash Hhash]%Hlisted.
  assert (Hrow : key ∈ getKeysByAddress r' (Key.Address key)).
  { apply getKeysByAddress_elem. eexists _, (Key.Name key). split.
    - unfold r'. by rewrite Add_keys, decide_True.
    - apply lookup_insert_eq. }
  pose proof (Info_Keys_lookup r' (Key.Type' key) (Key.Address key))
    as Hkeys.
  cbv zeta in Hkeys. fold info in Hkeys.
  rewrite decide_True in Hkeys.
  2: { split; [apply elem_of_values; by eexists |].
       intros Hnil. rewrite Hnil in Hrow. by apply elem_of_nil in Hrow. }
  destruct (copies (Key.Address key) (map_to_list (Info.Hashes info)).*2)
    as [| n] eqn:Hn.
  { apply nil_length_inv in Hn.
    assert (Ha : Key.Address key
                 ∈ filter (λ v, v = Key.Address key)
                     (map_to_list (Info.Hashes info)).*2).
    { apply list_elem_of_filter. split; [done |].
      apply elem_of_values. by eexists. }
    rewrite Hn in Ha. by apply elem_of_nil in Ha. }
  eexists _, key. split; [exact Hkeys |]. split; [| done].
  rewrite replicate_S, mjoin_cons. apply elem_of_app. by left.
Qed.


End RegistryTheory.

(** ** The registry on concrete entries *)
Section Scenario.
Import registry scenario.
#[local] Existing Instance decimal.

(** C1 fails as stated.  Replication factor 1 and a hash function under
    which all positions collide: after [Add(B)] and [Add(A)] the ring
    holds a position for each address, both under the key "0"; the walk
    visits the position of [A] first, the position of [B] overwrites it in
    [Hashes], and [Info] lists the address of [A] neither in [Hashes] nor
    in [Keys]. *)
Lemma Add_then_Info_counterexample :
  let r' := (Add (run (New flat 1) [CallAdd B]) A).1 in
  let info := (Info r' (Key.Type' A)).1 in
  (hashring.positions <$> hashRings r' !! Key.Type' A)
  = Some [(0%N, "10.0.0.1:7000"); (0%N, "10.0.0.2:7000")]
  ∧ (Info r' (Key.Type' A)).2 = true
  ∧ Info.Hashes info = {[ "0" := "10.0.0.2:7000" ]}
  ∧ ¬ (∃ hash, Info.Hashes info !! hash = Some (Key.Address A))
  ∧ Info.Keys info !! Key.Address A = None.
Proof.
  cbv zeta.
  assert (Hhashes :
            Info.Hashes (Info (Add (run (New flat 1) [CallAdd B]) A).1
                              (Key.Type' A)).1
            = {[ "0" := "10.0.0.2:7000" ]}) by (by vm_compute).
  split; [by vm_compute |]. split; [by vm_compute |].
  split; [exact Hhashes |]. split; [| by vm_compute].
  rewrite Hhashes. intros [hash Hhash].
  apply lookup_singleton_Some in Hhash as [_ Hhash]. discriminate.
Qed.

(** The amended C1 with replication factor 2 and a hash function under
    which the first virtual nodes of all addresses collide: after
    [Add(B)] and [Add(A)] the position of [A] under the key "0" is
    overwritten by the position of [B], the second position of [A] is the
    only one under its key, and [Info] lists [A]. *)
Lemma Add_then_Info_witness :
  let r' := (Add (run (New half 2) [CallAdd B]) A).1 in
  let info := (Info r' (Key.Type' A)).1 in
  1 <= 2
  ∧ (hashring.positions <$> hashRings r' !! Key.Type' A)
    = Some [(0%N, "10.0.0.1:7000"); (0%N, "10.0.0.2:7000");
            (1122101625%N, "10.0.0.1:7000");
            (2425397220%N, "10.0.0.2:7000")]
  ∧ Info.Hashes info !! "0" = Some "10.0.0.2:7000"
  ∧ ∃ ring,
      hashRings r' !! Key.Type' A = Some ring
      ∧ hashring.Contains ring (Key.Address A) = true
      ∧ (Info r' (Key.Type' A)).2 = true
      ∧ visitedLast ring (Key.Address A) = true
      ∧ (∃ hash, Info.Hashes info !! hash = Some (Key.Address A))
      ∧ ∃ l k, Info.Keys info !! Key.Address A = Some l
               ∧ k ∈ l ∧ Key.Name k = Key.Name A.
Proof.
  cbv zeta.
  assert (HR : 1 <= 2) by done.
  split; [exact HR |]. split; [by vm_compute |]. split; [by vm_compute |].
  destruct (Add_then_Info half 2 [CallAdd B] A HR)
    as (ring & Hring & Hc & Hfound & Hlisted & Hkeys).
  assert (Hlast : visitedLast ring (Key.Address A) = true).
  { vm_compute in Hring. injection Hring as <-. by vm_compute. }
  exists ring. split; [exact Hring |]. split; [exact Hc |].
  split; [exact Hfound |]. split; [exact Hlast |].
  split; [exact (proj2 Hlisted Hlast) | exact (Hkeys Hlast)].
Defined.



(** C6 on a registry in which [A] and [A2] share an address: removing
    [A] takes the address, and [A2] with it, out of what [Info] lists. *)
Lemma Remove_evicts_address_witness :
  let r := run (New fnv32a 2) [CallAdd A; CallAdd A2; CallAdd B] in
  let r' := (Remove r A).1 in
  let info := (Info r' (Key.Type' A)).1 in
  is_Some (hashRings r !! Key.Type' A)
  ∧ (∃ ring', hashRings r' !! Key.Type' A = Some ring'
              ∧ hashring.Contains ring' (Key.Address A) = false)
  ∧ (∀ h, Info.Hashes info !! h ≠ Some (Key.Address A2))
  ∧ Info.Keys info !! Key.Address A2 = None.
Proof.
  cbv zeta.
  destruct (hashRings (run (New fnv32a 2) [CallAdd A; CallAdd A2; CallAdd B])
              !! Key.Type' A) as [ring |] eqn:Hring.
  - split; [by eexists |].
    exact (Remove_evicts_address _ A ring Hring).
  - by vm_compute in Hring.
Defined.

(** C9 on a registry whose ring holds the address of [A] while the index
    row of the address is empty: the entry of the category "store" that
    was removed had the address and the name of [A]. *)
Lemma Info_Keys_never_empty_witness :
  let r := run (New fnv32a 2) [CallAdd A; CallRemove A_store] in
  let info := (Info r "worker").1 in
  Info r "worker" = (info, true)
  ∧ keys r !! Key.Address A = Some ∅
  ∧ (∃ h, Info.Hashes info !! h = Some (Key.Address A))
  ∧ Info.Keys info !! Key.Address A = None
  ∧ Info.Keys info !! Key.Address A ≠ Some [].
Proof.
  cbv zeta.
  set (r := run (New fnv32a 2) [CallAdd A; CallRemove A_store]).
  assert (Hinfo : Info r "worker" = ((Info r "worker").1, true))
    by (by vm_compute).
  assert (Hrow : keys r !! Key.Address A = Some ∅) by (by vm_compute).
  destruct (Info_Keys_never_empty r "worker" _ (Key.Address A) Hinfo)
    as [Homitted Hnonempty].
  split; [exact Hinfo |]. split; [exact Hrow |].
  split; [exists "1105324006"; by vm_compute |].
  split; [exact (Homitted (or_intror Hrow)) | exact Hnonempty].
Defined.

(** C2 fails on the code.  The scenario of the specification: replication
    factor 2, [A] and [B] added.  [Hashes] has four entries, two for each
    address; the second loop of [Info] ranges over all four and appends
    the row of the address each time, so [Keys] lists every entry twice. *)
Theorem Info_Keys_one_copy_per_position :
  let r := run (New fnv32a 2) [CallAdd A; CallAdd B] in
  let info := (Info r "worker").1 in
  (Info r "worker").2 = true
  ∧ map_to_list (Info.Hashes info)
    ≡ₚ [("1105324006", "10.0.0.1:7000"); ("1122101625", "10.0.0.1:7000");
        ("2425397220", "10.0.0.2:7000"); ("2442174839", "10.0.0.2:7000")]
  ∧ Info.Keys info
    = {[ "10.0.0.1:7000" := [A; A]; "10.0.0.2:7000" := [B; B] ]}
  ∧ Info.Keys info
    ≠ {[ "10.0.0.1:7000" := [A]; "10.0.0.2:7000" := [B] ]}.
Proof.
  cbv zeta.
  assert (Hkeys :
            Info.Keys (Info (run (New fnv32a 2) [CallAdd A; CallAdd B])
                            "worker").1
            = {[ "10.0.0.1:7000" := [A; A]; "10.0.0.2:7000" := [B; B] ]})
    by (by vm_compute).
  split; [by vm_compute |]. split; [| split; [exact Hkeys |]].
  - assert (Hlist :
              map_to_list
                (Info.Hashes
                   (Info (run (New fnv32a 2) [CallAdd A; CallAdd B])
                         "worker").1)
              = [("1122101625", "10.0.0.1:7000");
                 ("1105324006", "10.0.0.1:7000");
                 ("2425397220", "10.0.0.2:7000");
                 ("2442174839", "10.0.0.2:7000")]) by (by vm_compute).
    rewrite Hlist. apply perm_swap.
  - rewrite Hkeys. intros Heq.
    apply (f_equal (λ m : gmap string (list Key.t), m !! "10.0.0.1:7000"))
      in Heq.
    by vm_compute in Heq.
Qed.

(** The scenario of the specification, continued: after [Remove(A)] only
    the address of [B] is listed, and [Update(B')] answers true, leaves
    [Hashes] as it was and puts the new tags into [Keys]. *)
Example scenario_Remove_then_Update :
  let r := run (New fnv32a 2) [CallAdd A; CallAdd B; CallRemove A] in
  (map_to_list (Info.Hashes (Info r "worker").1)).*2
  = ["10.0.0.2:7000"; "10.0.0.2:7000"]
  ∧ dom (Info.Keys (Info r "worker").1) = {[ "10.0.0.2:7000" ]}
  ∧ (Update r B').2 = true
  ∧ Info.Hashes (Info (Update r B').1 "worker").1
    = Info.Hashes (Info r "worker").1
  ∧ Info.Keys (Info (Update r B').1 "worker").1 !! "10.0.0.2:7000"
    = Some [B'; B'].
Proof. cbv zeta. repeat split; by vm_compute. Qed.

(** [Remove] answers true when it removes an entry, when the index does
    not hold the entry, and when the registry is empty. *)
Example Remove_something_or_nothing :
  let r := run (New fnv32a 2) [CallAdd A] in
  (Remove r A).2 = true ∧ (Remove r A).1 ≠ r
  ∧ (Remove r B).2 = true ∧ keys (Remove r B).1 = keys r
  ∧ (Remove (New fnv32a 2) A).2 = true
  ∧ (Remove (New fnv32a 2) A).1 = New fnv32a 2.
Proof.
  cbv zeta. split; [done |]. split; [| by vm_compute].
  intros Heq. apply (f_equal (λ r, keys r !! Key.Address A)) in Heq.
  by vm_compute in Heq.
Qed.

(** A visitor that fails at the first position: [Info] with it answers
    what [Info] answers for a category without a ring. *)
Example InfoWith_failing_visitor :
  let r := run (New fnv32a 2) [CallAdd A; CallAdd B] in
  let failing := λ (hash addr : string) (hashes : gmap string string),
                   (hashes, Some (Errorf "stop")) in
  InfoWith failing r "worker" = (Info.zero, false)
  ∧ Info r "store" = (Info.zero, false)
  ∧ (Info r "worker").2 = true.
Proof. cbv zeta. repeat split; by vm_compute. Qed.

End Scenario.

(** ** The event adapter *)
Section EventAdapterTheory.
Import api.

Lemma foldl_perform_fmap {S : Type} (reg : Registry S)
  (fn : S → registry.Key.t → S * bool) (mk : registry.Key.t → Call) :
  (∀ st key, perform reg st (mk key) = (fn st key).1) →
  ∀ (batch : list members.Member.t) (st : S),
    foldl (λ st v, (fn st v).1) st (membersToKeys batch)
    = foldl (perform reg) st
            ((λ m, mk (registry.NewMemberKey m)) <$> batch).
Proof.
  intros Hmk batch. unfold membersToKeys.
  induction batch as [| m batch IH]; intros st; [done |].
  cbn [fmap list_fmap foldl]. by rewrite Hmk, <- IH.
Qed.

Lemma foldl_recorder (answer : Call → bool) (cs : list Call) :
  ∀ log, foldl (perform (recorder answer)) log cs = log ++ cs.
Proof.
  induction cs as [| c cs IH]; intros log; cbn [foldl].
  - by rewrite app_nil_r.
  - rewrite IH. destruct c; cbn; by rewrite <- app_assoc.
Qed.

(** C8: [HandleEvent] returns nil for every event, and what it does to the
    registry is to make the prescribed calls, in order, dropping their
    answers: [Add] for each member of a joined batch, [Remove] for left,
    [Update] for updated, and no call for any other event.  On a registry
    that records its calls the record grows by exactly those calls,
    whatever the registry answers. *)
Theorem HandleEvent_dispatch {S : Type} (e : eventAdapter S) (st : S)
  (event : members.Event.t) (answer : Call → bool) (log : list Call) :
  (HandleEvent e st event).2 = None
  ∧ (HandleEvent e st event).1
    = foldl (perform (registry e)) st (prescribed event)
  ∧ HandleEvent {| registry := recorder answer |} log event
    = (log ++ prescribed event, None).
Proof.
  assert (Hgen : ∀ (T : Type) (a : eventAdapter T) (t : T),
             HandleEvent a t event
             = (foldl (perform (registry a)) t (prescribed event), None)).
  { intros T a t. unfold HandleEvent, prescribed.
    destruct (members.Event.Type' event); [| done].
    destruct (members.Event.asMemberEvent event) as [memberEvent |];
      [| done].
    destruct (members.MemberEvent.EventType memberEvent); [| | | done];
      f_equal; by apply foldl_perform_fmap. }
  rewrite !Hgen. cbn [fst snd registry].
  by rewrite foldl_recorder.
Qed.

(** A joined batch of two members on the recording registry. *)
Example HandleEvent_joined :
  let m1 := {| members.Member.Name := "nodeA";
               members.Member.Address := "10.0.0.1:7000";
               members.Member.PeerType := "worker";
               members.Member.Tags := ∅ |} in
  let m2 := {| members.Member.Name := "nodeB";
               members.Member.Address := "10.0.0.2:7000";
               members.Member.PeerType := "worker";
               members.Member.Tags := ∅ |} in
  let event := {| members.Event.Type' := members.EventMember;
                  members.Event.asMemberEvent :=
                    Some {| members.MemberEvent.EventType :=
                              members.EventMemberJoined;
                            members.MemberEvent.Members := [m1; m2] |} |} in
  HandleEvent {| registry := recorder (λ _, false) |} [] event
  = ([Added scenario.A; Added scenario.B], None).
Proof. reflexivity. Qed.

(** The same batch on the registry of [pkg/cluster/registry]: both
    members are found under their category afterwards. *)
Example HandleEvent_joined_real :
  let m1 := {| members.Member.Name := "nodeA";
               members.Member.Address := "10.0.0.1:7000";
               members.Member.PeerType := "worker";
               members.Member.Tags := ∅ |} in
  let m2 := {| members.Member.Name := "nodeB";
               members.Member.Address := "10.0.0.2:7000";
               members.Member.PeerType := "worker";
               members.Member.Tags := ∅ |} in
  let event := {| members.Event.Type' := members.EventMember;
                  members.Event.asMemberEvent :=
                    Some {| members.MemberEvent.EventType :=
                              members.EventMemberJoined;
                            members.MemberEvent.Members := [m1; m2] |} |} in
  let r := registry.New scenario.fnv32a 2 in
  HandleEvent {| registry := @realRegistry scenario.decimal |} r event
  = (@registry.run scenario.decimal r
       [registry.CallAdd scenario.A; registry.CallAdd scenario.B], None).
Proof. reflexivity. Qed.

End EventAdapterTheory.

(** ** [members]: more on the peer-information tags *)
Section PeerInfoTagMore.
Import members.

Variable PeerTypeTag : string.

Lemma Atoi_isInt (s : string) : strconv.isInt (strconv.Atoi s).1.
Proof.
  assert (H0 : strconv.isInt 0) by (by vm_compute).
  assert (Hmin : strconv.isInt strconv.minInt) by (by vm_compute).
  assert (Hmax : strconv.isInt strconv.maxInt) by (by vm_compute).
  assert (Hlo : strconv.minInt = -9223372036854775808) by reflexivity.
  assert (Hhi : strconv.maxInt = 9223372036854775807) by reflexivity.
  unfold strconv.Atoi.
  destruct (match s with
            | EmptyString => (false, s)
            | String c rest =>
                if Ascii.eqb c "-" then (true, rest)
                else if Ascii.eqb c "+" then (false, rest) else (false, s)
            end) as [neg body].
  destruct body as [| c body]; [done |].
  assert (Hnonneg : ∀ t n un, 0 <= n →
            strconv.parseUint t n = strconv.ScanValue un → 0 <= un).
  { induction t as [| c' t IH]; intros n un Hn; cbn [strconv.parseUint].
    - intros [= <-]. lia.
    - destruct (strconv.isDigit c') eqn:Hc'; [| done].
      pose proof (isDigit_digitVal c' Hc').
      destruct (strconv.cutoff <=? n); [done |]. cbv zeta.
      destruct (strconv.maxUint64 <? n * 10 + strconv.digitVal c'); [done |].
      apply IH. lia. }
  destruct (strconv.parseUint (String c body) 0) as [| | un] eqn:Hscan;
    [done | by destruct neg |].
  apply Hnonneg in Hscan; [| lia].
  destruct neg; cbn [negb andb].
  - destruct (Z.ltb_spec (- strconv.minInt) un); [done |].
    split; cbn [fst]; lia.
  - destruct (Z.leb_spec (- strconv.minInt) un); [done |].
    split; cbn [fst]; lia.
Qed.

Lemma decodePeerInfoTag_inv (m : gmap string string) (info : PeerInfo.t) :
  decodePeerInfoTag PeerTypeTag m = (info, None) →
  ∃ port, m !! "name" = Some (PeerInfo.Name info)
          ∧ m !! PeerTypeTag = Some (PeerInfo.PeerType info)
          ∧ m !! "api_port" = Some port
          ∧ strconv.Atoi port = (PeerInfo.APIPort info, None)
          ∧ m !! "api_addr" = Some (PeerInfo.APIAddr info).
Proof.
  unfold decodePeerInfoTag.
  destruct (m !! "name") as [name |]; [| done].
  destruct (m !! PeerTypeTag) as [ty |]; [| done].
  destruct (m !! "api_port") as [port |]; [| done].
  destruct (strconv.Atoi port) as [n [e |]] eqn:Hport; [done |].
  destruct (m !! "api_addr") as [addr |]; [| done].
  intros [= <-]. by exists port.
Qed.

(** X1: [decodePeerInfoTag] returns a peer with a nil error exactly when
    the tags hold a name, a peer type, an address and a port that
    [strconv.Atoi] accepts; the peer then has these four values. *)
Theorem decodePeerInfoTag_success (m : gmap string string)
  (info : PeerInfo.t) :
  decodePeerInfoTag PeerTypeTag m = (info, None) ↔
  ∃ port, m !! "name" = Some (PeerInfo.Name info)
          ∧ m !! PeerTypeTag = Some (PeerInfo.PeerType info)
          ∧ m !! "api_port" = Some port
          ∧ strconv.Atoi port = (PeerInfo.APIPort info, None)
          ∧ m !! "api_addr" = Some (PeerInfo.APIAddr info).
Proof.
  split; [apply decodePeerInfoTag_inv |].
  unfold decodePeerInfoTag.
  intros (port & -> & -> & -> & -> & ->). by destruct info.
Qed.

(** X2: a tag under any other key does not matter to
    [decodePeerInfoTag]: with it or without it the result is the same. *)
Theorem decodePeerInfoTag_other_key (m : gmap string string)
  (k v : string) :
  k ≠ "name" → k ≠ PeerTypeTag → k ≠ "api_port" → k ≠ "api_addr" →
  decodePeerInfoTag PeerTypeTag (<[k := v]> m)
  = decodePeerInfoTag PeerTypeTag m
  ∧ decodePeerInfoTag PeerTypeTag (delete k m)
    = decodePeerInfoTag PeerTypeTag m.
Proof.
  intros Hn Ht Hp Ha. unfold decodePeerInfoTag.
  by rewrite !lookup_insert_ne, !lookup_delete_ne.
Qed.

Hypothesis tag_not_name : PeerTypeTag ≠ "name".
Hypothesis tag_not_addr : PeerTypeTag ≠ "api_addr".
Hypothesis tag_not_port : PeerTypeTag ≠ "api_port".

Lemma decode_encode (info : PeerInfo.t) :
  strconv.isInt (PeerInfo.APIPort info) →
  decodePeerInfoTag PeerTypeTag (encodePeerInfoTag PeerTypeTag info)
  = (info, None).
Proof.
  intros Hport.
  destruct (encodePeerInfoTag_lookups PeerTypeTag tag_not_name tag_not_addr
              tag_not_port info) as (Hn & Ht & Hp & Ha).
  unfold decodePeerInfoTag.
  rewrite Hn, Ht, Hp, Ha, (Atoi_Itoa _ Hport). by destruct info.
Qed.

(** X4: [encodePeerInfoTag] is injective on peers whose port is within
    [int]: two peers with the same tags are the same peer. *)
Theorem encodePeerInfoTag_injective (a b : PeerInfo.t) :
  strconv.isInt (PeerInfo.APIPort a) → strconv.isInt (PeerInfo.APIPort b) →
  encodePeerInfoTag PeerTypeTag a = encodePeerInfoTag PeerTypeTag b →
  a = b.
Proof.
  intros Ha Hb Heq.
  pose proof (decode_encode a Ha) as Hda.
  rewrite Heq, (decode_encode b Hb) in Hda. congruence.
Qed.

(** X5: the tags of a peer that [decodePeerInfoTag] returned without an
    error decode to that peer again, also when the port was written with
    a sign or with leading zeros. *)
Theorem decode_encode_decode (m : gmap string string) (info : PeerInfo.t) :
  decodePeerInfoTag PeerTypeTag m = (info, None) →
  decodePeerInfoTag PeerTypeTag (encodePeerInfoTag PeerTypeTag info)
  = (info, None).
Proof.
  intros Hm. apply decode_encode.
  apply decodePeerInfoTag_inv in Hm as (port & _ & _ & _ & Hport & _).
  pose proof (Atoi_isInt port) as Hrange. by rewrite Hport in Hrange.
Qed.

End PeerInfoTagMore.

(** The tags of a worker, and a tag of the deployment beside them. *)
Lemma decodePeerInfoTag_other_key_witness :
  let m := members.encodePeerInfoTag "peer_type"
             {| members.PeerInfo.Name := "nodeA";
                members.PeerInfo.PeerType := "worker";
                members.PeerInfo.APIAddr := "10.0.0.1";
                members.PeerInfo.APIPort := 7000 |} in
  members.decodePeerInfoTag "peer_type" (<["zone" := "eu"]> m)
  = members.decodePeerInfoTag "peer_type" m
  ∧ members.decodePeerInfoTag "peer_type" (delete "zone" m)
    = members.decodePeerInfoTag "peer_type" m.
Proof.
  cbv zeta. by apply (decodePeerInfoTag_other_key "peer_type").
Defined.

(** Two workers that differ in nothing. *)
Lemma encodePeerInfoTag_injective_witness :
  let a := {| members.PeerInfo.Name := "nodeA";
              members.PeerInfo.PeerType := "worker";
              members.PeerInfo.APIAddr := "10.0.0.1";
              members.PeerInfo.APIPort := 7000 |} in
  let b := {| members.PeerInfo.Name := "node" +:+ "A";
              members.PeerInfo.PeerType := "worker";
              members.PeerInfo.APIAddr := "10.0.0.1";
              members.PeerInfo.APIPort := 7 * 1000 |} in
  members.encodePeerInfoTag "peer_type" a
  = members.encodePeerInfoTag "peer_type" b
  ∧ a = b.
Proof.
  cbv zeta.
  assert (Hport : strconv.isInt 7000) by (by vm_compute).
  split; [reflexivity |].
  by apply (encodePeerInfoTag_injective "peer_type").
Defined.

(** Tags whose port was written with a sign and a leading zero. *)
Lemma decode_encode_decode_witness :
  let m : gmap string string :=
    {[ "name" := "nodeA"; "peer_type" := "worker";
       "api_port" := "+07000"; "api_addr" := "10.0.0.1" ]} in
  let info := {| members.PeerInfo.Name := "nodeA";
                 members.PeerInfo.PeerType := "worker";
                 members.PeerInfo.APIAddr := "10.0.0.1";
                 members.PeerInfo.APIPort := 7000 |} in
  members.decodePeerInfoTag "peer_type" m = (info, None)
  ∧ members.encodePeerInfoTag "peer_type" info !! "api_port" = Some "7000"
  ∧ members.decodePeerInfoTag "peer_type"
      (members.encodePeerInfoTag "peer_type" info) = (info, None).
Proof.
  cbv zeta.
  assert (Hm : members.decodePeerInfoTag "peer_type"
                 ({[ "name" := "nodeA"; "peer_type" := "worker";
                     "api_port" := "+07000"; "api_addr" := "10.0.0.1" ]}
                  : gmap string string)
               = ({| members.PeerInfo.Name := "nodeA";
                     members.PeerInfo.PeerType := "worker";
                     members.PeerInfo.APIAddr := "10.0.0.1";
                     members.PeerInfo.APIPort := 7000 |}, None))
    by (by vm_compute).
  split; [exact Hm |]. split; [by vm_compute |].
  by apply (decode_encode_decode "peer_type") in Hm.
Defined.

(** ** [members]: [Build] and the options *)
Section BuildTheory.
Import config.

Lemma applyAll_error (opts : list Option) :
  ∀ config cfg e, applyAll opts config = (cfg, Some e) → cfg = zero.
Proof.
  induction opts as [| opt opts IH]; intros config cfg e; cbn [applyAll].
  - done.
  - destruct (opt config) as [config' [e' |]].
    + by intros [= <- _].
    + apply IH.
Qed.

Lemma applyAll_app (a b : list Option) :
  ∀ config,
    applyAll (a ++ b) config
    = match applyAll a config with
      | (cfg, None) => applyAll b cfg
      | (cfg, Some e) => (cfg, Some e)
      end.
Proof.
  induction a as [| opt a IH]; intros config; [done |].
  cbn [app applyAll]. destruct (opt config) as [config' [e |]]; [done |].
  apply IH.
Qed.

(** X6: when [Build] returns an error, the configuration it returns is
    [Config{}]: what the options before the failing one had set is not
    handed out. *)
Theorem Build_error_zero (opts : list Option) :
  (Build opts).2 ≠ None → (Build opts).1 = zero.
Proof.
  destruct (Build opts) as [cfg [e |]] eqn:Hb; [| done].
  intros _. by apply (applyAll_error opts zero cfg e).
Qed.

(** X7: [Build] on two lists of options, one after the other: when the
    first list fails, that is the result and no option of the second list
    is run; otherwise the second list goes on from the configuration the
    first one built. *)
Theorem Build_app (a b : list Option) :
  Build (a ++ b)
  = match Build a with
    | (cfg, None) => applyAll b cfg
    | (cfg, Some e) => (zero, Some e)
    end.
Proof.
  unfold Build. rewrite applyAll_app.
  destruct (applyAll a zero) as [cfg [e |]] eqn:Ha; [| done].
  by rewrite (applyAll_error a zero cfg e Ha).
Qed.

Lemma applyAll_Offered (opts : list Option) :
  Forall Offered opts → ∀ config, (applyAll opts config).2 = None.
Proof.
  induction 1 as [| opt opts Hopt _ IH]; intros config; [done |].
  cbn [applyAll]. destruct Hopt; cbn; apply IH.
Qed.

(** X8: [Build] returns no error on options that are all made by the
    package's own [With...] functions, however many and in whatever
    order. *)
Theorem Build_Offered (opts : list Option) :
  Forall Offered opts → (Build opts).2 = None.
Proof. intros Hopts. by apply applyAll_Offered. Qed.

End BuildTheory.

(** A failing option between two that set the node name. *)
Lemma Build_error_zero_witness :
  let opts := [config.WithNodeName "nodeA";
               config.failing (Errorf "no such interface");
               config.WithNodeName "nodeB"] in
  (config.Build opts).2 = Some (Errorf "no such interface")
  ∧ (config.Build opts).1 = config.zero.
Proof.
  cbv zeta. split; [reflexivity |].
  by apply Build_error_zero.
Defined.

(** The options of a worker node. *)
Lemma Build_Offered_witness :
  let opts := [config.WithPeerType "worker"; config.WithNodeName "nodeA";
               config.WithAPIAddrPort "10.0.0.1" 7000;
               config.WithNodeName "nodeB"] in
  Forall config.Offered opts
  ∧ (config.Build opts).2 = None
  ∧ config.nodeName (config.Build opts).1 = "nodeB".
Proof.
  cbv zeta.
  assert (Hopts : Forall config.Offered
                    [config.WithPeerType "worker"; config.WithNodeName "nodeA";
                     config.WithAPIAddrPort "10.0.0.1" 7000;
                     config.WithNodeName "nodeB"])
    by (repeat constructor).
  split; [exact Hopts |]. split; [exact (Build_Offered _ Hopts) | reflexivity].
Defined.

(** ** The query of the HTTP API *)
Section ServicesTheory.
Import services.

Variable PeerTypeAny : members.PeerType.
Variable ParsePeerType : string → members.PeerType * option error.
Variable Current :
  members.PeerType → gmap members.PeerType (list string) * option error.
Variable quoted : string → string.

Local Abbreviation decode :=
  (DecodeFrom PeerTypeAny ParsePeerType quoted).
Local Abbreviation handle :=
  (handleServices PeerTypeAny ParsePeerType Current quoted).

(** X9: [DecodeFrom] returns no error exactly when the Accept header is
    absent, empty or "application/json" and the type parameter is absent,
    empty or accepted by [ParsePeerType]; without a type parameter the
    type is [PeerTypeAny], and with a header it refuses it leaves the
    parameters as they were and does not look at the type. *)
Theorem DecodeFrom_result (p : ServicesParams)
  (headers values : gmap string (list string)) :
  let accept := Get headers "Accept" in
  let typ := Get values "type" in
  ((decode p headers values).2 = None ↔
     (accept = "" ∨ accept = "application/json")
     ∧ (typ = "" ∨ (ParsePeerType typ).2 = None))
  ∧ ((accept = "" ∨ accept = "application/json") → typ = "" →
     decode p headers values = ({| Type' := PeerTypeAny |}, None))
  ∧ (accept ≠ "" → accept ≠ "application/json" →
     (decode p headers values).1 = p).
Proof.
  cbv zeta. unfold DecodeFrom, defaultContentType.
  case_bool_decide as Haccept.
  - destruct Haccept as [Hne Hnj]. split; [| split]; [| | done].
    + split; [done |]. by intros [[? | ?] _].
    + by intros [? | ?].
  - assert (Hok : Get headers "Accept" = ""
                  ∨ Get headers "Accept" = "application/json").
    { destruct (decide (Get headers "Accept" = "")); [by left |].
      destruct (decide (Get headers "Accept" = "application/json"));
        [by right |].
      by destruct Haccept. }
    assert (Hthird : ∀ q : ServicesParams,
               Get headers "Accept" ≠ "" →
               Get headers "Accept" ≠ "application/json" → q = p)
      by (intros q ? ?; by destruct Hok).
    case_bool_decide as Htyp.
    + split; [| split]; [| done | apply Hthird].
      split; [| done]. intros _. split; [done | by left].
    + destruct (ParsePeerType (Get values "type")) as [t err] eqn:Hparse.
      cbn [fst snd]. split; [| split]; [| done | apply Hthird].
      split; [intros -> | by intros [_ [? | ?]]].
      split; [done | by right].
Qed.

(** X10: [handleServices] answers not-found exactly when the query was
    decoded without an error to a type other than [PeerTypeAny] and
    [Current] returned, without an error, services in which that type is
    missing or has no address.  So a query without a type parameter is
    never answered not-found. *)
Theorem handleServices_NotFound
  (headers values : gmap string (list string)) :
  (handle headers values = NotFound ↔
     ∃ t services,
       decode {| Type' := "" |} headers values = ({| Type' := t |}, None)
       ∧ Current t = (services, None)
       ∧ t ≠ PeerTypeAny
       ∧ (services !! t = None ∨ services !! t = Some []))
  ∧ (Get values "type" = "" → handle headers values ≠ NotFound).
Proof.
  assert (Hiff :
    handle headers values = NotFound ↔
    ∃ t services,
      decode {| Type' := "" |} headers values = ({| Type' := t |}, None)
      ∧ Current t = (services, None)
      ∧ t ≠ PeerTypeAny
      ∧ (services !! t = None ∨ services !! t = Some [])).
  { unfold handleServices.
    destruct (decode {| Type' := "" |} headers values)
      as [[t] [e |]] eqn:Hdec; cbn [Type'].
    { split; [done |]. by intros (? & ? & [=] & _). }
    destruct (Current t) as [services [e |]] eqn:Hcur.
    { split; [done |]. intros (t' & ? & [= <-] & Hc & _).
      rewrite Hcur in Hc. done. }
    case_bool_decide as Hany.
    - destruct (services !! t) as [[| addr l] |] eqn:Hl.
      + split; [| done]. intros _. exists t, services.
        repeat split; [done .. |]. by right.
      + split; [done |]. intros (t' & s' & [= <-] & Hc & _ & Hs).
        rewrite Hcur in Hc. injection Hc as <-. rewrite Hl in Hs.
        by destruct Hs.
      + split; [| done]. intros _. exists t, services.
        repeat split; [done .. |]. by left.
    - split; [done |]. intros (t' & ? & [= <-] & _ & Hne & _).
      by destruct Hany. }
  split; [exact Hiff |].
  intros Htyp Hnf. apply Hiff in Hnf as (t & services & Hdec & _ & Hne & _).
  unfold DecodeFrom in Hdec. rewrite Htyp in Hdec.
  case_bool_decide; [done |].
  rewrite bool_decide_eq_true_2 in Hdec by done. congruence.
Qed.

End ServicesTheory.

(** ** The registry: the index, and what is never undone *)
Section RegistryMore.
Context `{!hashring.Layout}.
Import registry.

(** The entry stored at [r.keys[a][n]], if there is one. *)
Local Abbreviation entryAt r a n :=
  (keys r !! a ≫= (λ row : gmap string Key.t, row !! n)).

Lemma Add_entryAt (r : real) (key : Key.t) (a n : string) :
  entryAt (Add r key).1 a n
  = if decide (a = Key.Address key ∧ n = Key.Name key)
    then Some key else entryAt r a n.
Proof.
  rewrite Add_keys. destruct (decide (a = Key.Address key)) as [-> | Ha].
  - cbn [mbind option_bind].
    destruct (decide (n = Key.Name key)) as [-> | Hn].
    + by rewrite lookup_insert_eq, decide_True.
    + rewrite lookup_insert_ne by done. rewrite decide_False by tauto.
      by destruct (keys r !! Key.Address key).
  - by rewrite decide_False by tauto.
Qed.

Lemma Remove_entryAt (r : real) (key : Key.t) (a n : string) :
  entryAt (Remove r key).1 a n
  = if decide (a = Key.Address key ∧ n = Key.Name key)
    then None else entryAt r a n.
Proof.
  rewrite Remove_keys. destruct (decide (a = Key.Address key)) as [-> | Ha].
  - destruct (keys r !! Key.Address key) as [row |]; cbn.
    + destruct (decide (n = Key.Name key)) as [-> | Hn].
      * by rewrite lookup_delete_eq, decide_True.
      * rewrite lookup_delete_ne by done. by rewrite decide_False by tauto.
    + by case_decide.
  - by rewrite decide_False by tauto.
Qed.

(** [Update] either returns the registry as it was, with false, or has
    found ring, address, row and name, and returns true. *)
Lemma Update_cases (r : real) (key : Key.t) :
  Update r key = (r, false)
  ∨ ∃ ring row old,
      hashRings r !! Key.Type' key = Some ring
      ∧ hashring.Contains ring (Key.Address key) = true
      ∧ keys r !! Key.Address key = Some row
      ∧ row !! Key.Name key = Some old
      ∧ Update r key
        = (withState r (hashRings r)
             (<[Key.Address key := <[Key.Name key := key]> row]> (keys r)),
           true).
Proof.
  unfold Update.
  destruct (hashRings r !! Key.Type' key) as [ring |]; [| by left].
  destruct (hashring.Contains ring (Key.Address key)) eqn:Hc;
    cbn [negb]; [| by left].
  destruct (keys r !! Key.Address key) as [row |]; [| by left].
  destruct (row !! Key.Name key) as [old |] eqn:Hold; [| by left].
  right. by exists ring, row, old.
Qed.

Lemma Update_entryAt (r : real) (key : Key.t) (a n : string) :
  entryAt (Update r key).1 a n
  = if decide ((Update r key).2 = true
               ∧ a = Key.Address key ∧ n = Key.Name key)
    then Some key else entryAt r a n.
Proof.
  destruct (Update_cases r key)
    as [-> | (ring & row & old & _ & _ & Hrow & Hold & ->)].
  - cbn [fst snd]. by rewrite decide_False by (by intros [? _]).
  - cbn [fst snd withState keys].
    destruct (decide (a = Key.Address key)) as [-> | Ha].
    + rewrite lookup_insert_eq. cbn [mbind option_bind].
      destruct (decide (n = Key.Name key)) as [-> | Hn].
      * by rewrite lookup_insert_eq, decide_True.
      * rewrite lookup_insert_ne by done. rewrite decide_False by tauto.
        by rewrite Hrow.
    + rewrite lookup_insert_ne by done. by rewrite decide_False by tauto.
Qed.

(** Every entry is stored under its own address and name. *)
Local Abbreviation coherent r :=
  (∀ a n k, entryAt r a n = Some k → Key.Address k = a ∧ Key.Name k = n).

Lemma call_coherent (r : real) (m : Mutation) :
  coherent r → coherent (call r m).
Proof.
  intros Hr a n k. destruct m as [key | key | key]; cbn [call].
  - rewrite Add_entryAt. case_decide as Hd; [| apply Hr].
    destruct Hd as [-> ->]. by intros [= <-].
  - rewrite Remove_entryAt. case_decide; [done | apply Hr].
  - rewrite Update_entryAt. case_decide as Hd; [| apply Hr].
    destruct Hd as (_ & -> & ->). by intros [= <-].
Qed.

Lemma run_coherent (ms : list Mutation) :
  ∀ r, coherent r → coherent (run r ms).
Proof.
  unfold run. induction ms as [| m ms IH]; intros r Hr; [done |].
  cbn [foldl]. by apply IH, call_coherent.
Qed.

Lemma elem_of_repeated {A : Type} (x : A) (l : list A) (n : nat) :
  x ∈ mjoin (replicate n l) → x ∈ l.
Proof.
  induction n as [| n IH]; cbn [replicate].
  - by intros ?%elem_of_nil.
  - rewrite mjoin_cons, elem_of_app. by intros [? | ?%IH].
Qed.

Lemma Info_Keys_elem (r : real) (s a : string) (k : Key.t) :
  (∃ l, Info.Keys (Info r s).1 !! a = Some l ∧ k ∈ l) ↔
  (∃ h, Info.Hashes (Info r s).1 !! h = Some a)
  ∧ ∃ n, entryAt r a n = Some k.
Proof.
  split.
  - intros (l & Hl & Hk).
    apply Info_Keys_Some in Hl as (Hh & _ & c & ->).
    split; [done |].
    assert (Hrow : k ∈ getKeysByAddress r a).
    { apply elem_of_app in Hk as [? | ?%elem_of_repeated]; done. }
    apply getKeysByAddress_elem in Hrow as (row & n & Hrow & Hn).
    exists n. by rewrite Hrow.
  - intros [Hh [n Hn]].
    destruct (keys r !! a) as [row |] eqn:Hrow; [| done].
    cbn in Hn.
    assert (Hk : k ∈ getKeysByAddress r a)
      by (by eapply getKeysByAddress_entry).
    pose proof (Info_Keys_lookup r s a) as Hl. cbv zeta in Hl.
    rewrite decide_True in Hl.
    2: { split; [by apply elem_of_values |]. intros Hnil.
         rewrite Hnil in Hk. by apply elem_of_nil in Hk. }
    eexists. split; [exact Hl |].
    destruct (length (filter (λ v, v = a)
                        (map_to_list (Info.Hashes (Info r s).1)).*2))
      as [| c] eqn:Hc.
    + apply nil_length_inv in Hc.
      assert (Ha : a ∈ filter (λ v, v = a)
                     (map_to_list (Info.Hashes (Info r s).1)).*2).
      { apply list_elem_of_filter. split; [done |].
        by apply elem_of_values. }
      rewrite Hc in Ha. by apply elem_of_nil in Ha.
    + rewrite replicate_S, mjoin_cons. apply elem_of_app. by left.
Qed.

(** X11: in a registry made by [New] and changed by any calls, every
    entry of the index is stored under its own address and its own name;
    so every entry that [Info] lists under an address has that address. *)
Theorem index_coherent (h : string → N) (R : Z) (ms : list Mutation) :
  let r := run (New h R) ms in
  (∀ a n k, entryAt r a n = Some k → Key.Address k = a ∧ Key.Name k = n)
  ∧ (∀ s a l k, Info.Keys (Info r s).1 !! a = Some l → k ∈ l →
                Key.Address k = a).
Proof.
  cbv zeta.
  assert (Hr : coherent (run (New h R) ms)).
  { apply run_coherent. intros a n k. cbn [New keys].
    by rewrite lookup_empty. }
  split; [exact Hr |].
  intros s a l k Hl Hk.
  destruct (proj1 (Info_Keys_elem (run (New h R) ms) s a k))
    as [_ [n Hn]]; [by exists l |].
  by apply Hr in Hn as [? _].
Qed.

(** X12: [Update] of an entry that was just removed answers false,
    whatever the registry held. *)
Theorem Update_after_Remove (r : real) (key : Key.t) :
  (Update (Remove r key).1 key).2 = false.
Proof.
  destruct (Update_cases (Remove r key).1 key)
    as [-> | (ring & row & old & _ & _ & Hrow & Hold & _)]; [done |].
  pose proof (Remove_entryAt r key (Key.Address key) (Key.Name key)) as He.
  rewrite decide_True in He by done. rewrite Hrow in He. cbn in He.
  congruence.
Qed.

(** X13: [Update] is idempotent: a second [Update] of the same entry
    answers what the first answered and leaves the registry as the first
    left it. *)
Theorem Update_idempotent (r : real) (key : Key.t) :
  Update (Update r key).1 key = Update r key.
Proof.
  destruct (Update_cases r key)
    as [Hu | (ring & row & old & Hring & Hc & Hrow & Hold & Hu)];
    rewrite Hu; cbn [fst]; [done |].
  unfold Update. cbn [withState hashRings keys hashFn replicationFactor].
  rewrite Hring, Hc. cbn [negb]. rewrite !lookup_insert_eq.
  by rewrite !insert_insert_eq.
Qed.

Lemma call_ring_kept (r : real) (m : Mutation) (c : string) :
  is_Some (hashRings r !! c) → is_Some (hashRings (call r m) !! c).
Proof.
  intros [ring Hring]. destruct m as [key | key | key]; cbn [call].
  - rewrite Add_hashRings. case_decide; [by eexists | by rewrite Hring].
  - rewrite Remove_hashRings, Hring. case_decide; by eexists.
  - rewrite Update_hashRings, Hring. by eexists.
Qed.

Lemma call_row_kept (r : real) (m : Mutation) (a : string) :
  is_Some (keys r !! a) → is_Some (keys (call r m) !! a).
Proof.
  intros [row Hrow]. destruct m as [key | key | key]; cbn [call].
  - rewrite Add_keys. case_decide; [by eexists | by rewrite Hrow].
  - rewrite Remove_keys, Hrow. case_decide; by eexists.
  - destruct (Update_cases r key)
      as [-> | (? & row' & ? & _ & _ & _ & _ & ->)];
      cbn [fst withState keys]; [by rewrite Hrow |].
    destruct (decide (a = Key.Address key)) as [-> | Ha].
    + rewrite lookup_insert_eq. by eexists.
    + rewrite lookup_insert_ne by done. by rewrite Hrow.
Qed.

Lemma run_ring_kept (ms : list Mutation) (c : string) :
  ∀ r, is_Some (hashRings r !! c) → is_Some (hashRings (run r ms) !! c).
Proof.
  unfold run. induction ms as [| m ms IH]; intros r Hr; [done |].
  cbn [foldl]. by apply IH, call_ring_kept.
Qed.

Lemma run_row_kept (ms : list Mutation) (a : string) :
  ∀ r, is_Some (keys r !! a) → is_Some (keys (run r ms) !! a).
Proof.
  unfold run. induction ms as [| m ms IH]; intros r Hr; [done |].
  cbn [foldl]. by apply IH, call_row_kept.
Qed.

(** X14: no call takes a ring or an index row away: a category that has
    a ring keeps one, an address that has a row keeps one (an emptied row
    stays as an empty row), and a category that [Info] has found once is
    found after any further calls. *)
Theorem never_deleted (r : real) (ms : list Mutation) :
  (∀ c, is_Some (hashRings r !! c) → is_Some (hashRings (run r ms) !! c))
  ∧ (∀ a, is_Some (keys r !! a) → is_Some (keys (run r ms) !! a))
  ∧ (∀ s, (Info r s).2 = true → (Info (run r ms) s).2 = true).
Proof.
  split; [| split].
  - intros c. apply run_ring_kept.
  - intros a. apply run_row_kept.
  - intros s. rewrite !Info_found. apply run_ring_kept.
Qed.

(** X15: only [Add] makes a ring: when a category has no ring and no
    call of a sequence is an [Add] of an entry of that category, the
    category has no ring afterwards and [Info] does not find it. *)
Theorem ring_only_by_Add (r : real) (ms : list Mutation) (c : string) :
  hashRings r !! c = None →
  (∀ key, CallAdd key ∈ ms → Key.Type' key ≠ c) →
  hashRings (run r ms) !! c = None
  ∧ Info (run r ms) c = (Info.zero, false).
Proof.
  intros Hr Hms.
  assert (Hnone : hashRings (run r ms) !! c = None).
  { unfold run. revert r Hr.
    induction ms as [| m ms IH]; intros r Hr; [done |].
    cbn [foldl]. apply IH.
    - intros key Hkey. apply Hms, elem_of_cons. by right.
    - destruct m as [key | key | key]; cbn [call].
      + rewrite Add_hashRings, decide_False; [done |].
        intros ->. by apply (Hms key); [apply elem_of_cons; left |].
      + rewrite Remove_hashRings, Hr. by case_decide.
      + by rewrite Update_hashRings. }
  split; [exact Hnone | by apply Info_no_ring].
Qed.

(** X16: [Info] lists an entry under an address exactly when the address
    is a value of [Hashes] and the index holds the entry under that
    address: nothing is listed that the index does not hold, and nothing
    the index holds at an address of the ring is left out. *)
Theorem Info_lists_index_entries (r : real) (s a : string) (k : Key.t) :
  (∃ l, Info.Keys (Info r s).1 !! a = Some l ∧ k ∈ l) ↔
  (∃ h, Info.Hashes (Info r s).1 !! h = Some a)
  ∧ ∃ n, keys r !! a ≫= (λ row : gmap string Key.t, row !! n) = Some k.
Proof. apply Info_Keys_elem. Qed.

Lemma length_repeated {A : Type} (l : list A) (n : nat) :
  length (mjoin (replicate n l)) = (n * length l)%nat.
Proof.
  induction n as [| n IH]; [done |].
  rewrite replicate_S, mjoin_cons, length_app, IH. lia.
Qed.

(** X17: what [Info] lists under an address holds every entry of the
    address's row once for every entry of [Hashes] whose value is the
    address, in whatever order: it is a permutation of that many copies of
    the row, so its length is the number of those entries times the length
    of the row. *)
Theorem Info_Keys_repeats (r : real) (s a : string) (l : list Key.t) :
  Info.Keys (Info r s).1 !! a = Some l →
  let c := length (filter (λ v, v = a)
                     (map_to_list (Info.Hashes (Info r s).1)).*2) in
  l ≡ₚ mjoin (replicate c (getKeysByAddress r a))
  ∧ length l = (c * length (getKeysByAddress r a))%nat
  ∧ (0 < c)%nat.
Proof.
  intros Hl c. pose proof (Info_Keys_lookup r s a) as Hk.
  cbv zeta in Hk. fold c in Hk. rewrite Hl in Hk.
  case_decide as Hd; [| done]. injection Hk as ->.
  split; [done |]. split; [apply length_repeated |].
  destruct Hd as [Ha _]. destruct c as [| c'] eqn:Hc; [| lia].
  apply nil_length_inv in Hc.
  assert (Hin : a ∈ filter (λ v, v = a)
                  (map_to_list (Info.Hashes (Info r s).1)).*2)
    by (by apply list_elem_of_filter).
  rewrite Hc in Hin. by apply elem_of_nil in Hin.
Qed.

(** X18: the index after one call.  [Add] stores the entry under its
    address and name, whatever was stored there and whatever the ring
    answered; [Remove] leaves nothing under the entry's address and name;
    [Update] stores the entry there when it answers true; and every other
    place of the index is as it was. *)
Theorem index_after_call (r : real) (m : Mutation) (a n : string) :
  entryAt (call r m) a n
  = if decide (a = Key.Address (subject m) ∧ n = Key.Name (subject m))
    then match m with
         | CallAdd key => Some key
         | CallRemove _ => None
         | CallUpdate key =>
             if (Update r key).2 then Some key else entryAt r a n
         end
    else entryAt r a n.
Proof.
  destruct m as [key | key | key]; cbn [call subject].
  - apply Add_entryAt.
  - apply Remove_entryAt.
  - rewrite Update_entryAt. destruct (Update r key).2.
    + case_decide as Hd; [by rewrite decide_True by tauto |].
      by rewrite decide_False by tauto.
    + rewrite decide_False by (by intros [? _]). by case_decide.
Qed.

(** X19: after [Remove] of an entry, [Update] answers false for every
    entry of the same category at the same address, also for one whose
    own index entry is still there. *)
Theorem Update_after_Remove_same_address (r : real) (key other : Key.t) :
  Key.Type' other = Key.Type' key →
  Key.Address other = Key.Address key →
  (Update (Remove r key).1 other).2 = false.
Proof.
  intros Hty Haddr.
  destruct (Update_cases (Remove r key).1 other)
    as [-> | (ring & _ & _ & Hring & Hc & _)]; [done |].
  rewrite Hty, Haddr in *.
  rewrite Remove_hashRings, decide_True in Hring by done.
  destruct (hashRings r !! Key.Type' key) as [ring0 |]; [| done].
  change (Some (hashring.Remove ring0 (Key.Address key)).1 = Some ring)
    in Hring.
  assert (Heq : ring = (hashring.Remove ring0 (Key.Address key)).1)
    by congruence.
  by rewrite Heq, Remove_Contains in Hc.
Qed.

(** X20: [Update] changes nothing of what [Info] reports but the entries
    themselves: for every category found, [Hashes] and the addresses that
    [Keys] lists are the same before and after. *)
Theorem Update_Info_inert (r : real) (key : Key.t) (s : string) :
  let r' := (Update r key).1 in
  (Info r' s).2 = (Info r s).2
  ∧ Info.Hashes (Info r' s).1 = Info.Hashes (Info r s).1
  ∧ ∀ a, is_Some (Info.Keys (Info r' s).1 !! a)
         ↔ is_Some (Info.Keys (Info r s).1 !! a).
Proof.
  cbv zeta.
  destruct (Info_same_ring r (Update r key).1 s) as [Hfound Hhashes];
    [by rewrite Update_hashRings |].
  split; [done |]. split; [done |].
  intros a. rewrite !Info_Keys_lookup. cbv zeta. rewrite Hhashes.
  assert (Hrow : getKeysByAddress (Update r key).1 a = []
                 ↔ getKeysByAddress r a = []).
  { destruct (Update_cases r key)
      as [-> | (? & row & old & _ & _ & Hrow & Hold & ->)]; [done |].
    rewrite !getKeysByAddress_nil. cbn [fst withState keys].
    destruct (decide (a = Key.Address key)) as [-> | Ha].
    - rewrite lookup_insert_eq, Hrow. split.
      + intros [? | [= Hempty]]; [done |].
        apply (f_equal (λ row, row !! Key.Name key)) in Hempty.
        by rewrite lookup_insert_eq, lookup_empty in Hempty.
      + intros [? | [= ->]]; [done |]. by rewrite lookup_empty in Hold.
    - by rewrite lookup_insert_ne. }
  split; intros [l Hl]; case_decide as Hd; try done;
    (rewrite decide_True; [by eexists | tauto]).
Qed.

End RegistryMore.

(** ** Member events on the registry *)
Section EventsOnRegistry.
Context `{!hashring.Layout}.
Import registry.

Local Abbreviation entryAt r a n :=
  (keys r !! a ≫= (λ row : gmap string Key.t, row !! n)).

(** A member event of the given kind with the given batch, handed to the
    adapter of the registry. *)
Local Abbreviation handled r kind batch :=
  (api.HandleEvent {| api.registry := api.realRegistry |} r
     {| members.Event.Type' := members.EventMember;
        members.Event.asMemberEvent :=
          Some {| members.MemberEvent.EventType := kind;
                  members.MemberEvent.Members := batch |} |}).1.

Lemma foldl_Remove_entryAt (ks : list Key.t) (a n : string) :
  ∀ r, entryAt r a n = None
       ∨ (∃ k, k ∈ ks ∧ Key.Address k = a ∧ Key.Name k = n) →
       entryAt (foldl (λ st v, (Remove st v).1) r ks) a n = None.
Proof.
  induction ks as [| k0 ks IH]; intros r Hr; cbn [foldl].
  - destruct Hr as [Hr | (k & Hk & _)]; [done |].
    by apply elem_of_nil in Hk.
  - apply IH. rewrite Remove_entryAt.
    destruct Hr as [Hr | (k & [-> | Hk]%elem_of_cons & Ha & Hn)].
    + left. by case_decide.
    + left. by rewrite decide_True.
    + right. by exists k.
Qed.

Lemma foldl_Add_ring (ks : list Key.t) (c : string) (r : real) :
  (∃ k, k ∈ ks ∧ Key.Type' k = c) →
  is_Some (hashRings (foldl (λ st v, (Add st v).1) r ks) !! c).
Proof.
  induction ks as [| x ks IH] using rev_ind.
  - by intros (k & Hk%elem_of_nil & _).
  - intros (k & Hk & Hc). rewrite foldl_snoc, Add_hashRings.
    case_decide as Hx; [by eexists |].
    apply elem_of_app in Hk as [Hk | ->%list_elem_of_singleton].
    + apply IH. by exists k.
    + by destruct Hx.
Qed.

Lemma Update_entryAt_is_Some (r : real) (key : Key.t) (a n : string) :
  is_Some (entryAt (Update r key).1 a n) ↔ is_Some (entryAt r a n).
Proof.
  destruct (Update_cases r key)
    as [-> | (? & row & old & _ & _ & Hrow & Hold & ->)]; [done |].
  cbn [fst withState keys].
  destruct (decide (a = Key.Address key)) as [-> | Ha].
  - rewrite lookup_insert_eq, Hrow. cbn [mbind option_bind].
    destruct (decide (n = Key.Name key)) as [-> | Hn].
    + rewrite lookup_insert_eq, Hold. split; by eexists.
    + by rewrite lookup_insert_ne.
  - by rewrite lookup_insert_ne.
Qed.

Lemma membersToKeys_elem (batch : list members.Member.t)
  (m : members.Member.t) :
  m ∈ batch → NewMemberKey m ∈ api.membersToKeys batch.
Proof. intros Hm. by apply list_elem_of_fmap_2. Qed.

(** X21: after a member-left event, the index holds no entry under the
    address and name of any member of the batch, whatever the registry
    held and in whatever order the members came. *)
Theorem left_event_clears_index (r : real)
  (batch : list members.Member.t) (m : members.Member.t) :
  m ∈ batch →
  entryAt (handled r members.EventMemberLeft batch)
          (members.Member.Address m) (members.Member.Name m) = None.
Proof.
  intros Hm. apply foldl_Remove_entryAt. right.
  exists (NewMemberKey m). by split; [apply membersToKeys_elem |].
Qed.

Lemma foldl_Add_entryAt_other (ks : list Key.t) (a n : string) :
  (∀ k, k ∈ ks → ¬ (Key.Address k = a ∧ Key.Name k = n)) →
  ∀ r, entryAt (foldl (λ st v, (Add st v).1) r ks) a n = entryAt r a n.
Proof.
  induction ks as [| k ks IH]; intros Hks r; [done |].
  cbn [foldl]. rewrite IH.
  - rewrite Add_entryAt, decide_False; [done |].
    intros [-> ->]. by apply (Hks k); [apply elem_of_cons; left |].
  - intros k' Hk'. apply Hks, elem_of_cons. by right.
Qed.

(** The last member of a batch that has the address and name of a given
    member of the batch. *)
Lemma last_with_place (batch : list members.Member.t)
  (m : members.Member.t) :
  m ∈ batch →
  ∃ before m' after,
    batch = before ++ m' :: after
    ∧ members.Member.Address m' = members.Member.Address m
    ∧ members.Member.Name m' = members.Member.Name m
    ∧ ∀ x, x ∈ after →
           ¬ (members.Member.Address x = members.Member.Address m
              ∧ members.Member.Name x = members.Member.Name m).
Proof.
  induction batch as [| x batch IH] using rev_ind.
  - by intros ?%elem_of_nil.
  - intros Hm.
    destruct (decide (members.Member.Address x = members.Member.Address m
                      ∧ members.Member.Name x = members.Member.Name m))
      as [[Ha Hn] | Hx].
    + exists batch, x, []. repeat split; [done .. |].
      by intros ? ?%elem_of_nil.
    + apply elem_of_app in Hm as [Hm | ->%list_elem_of_singleton];
        [| by destruct Hx].
      destruct (IH Hm) as (before & m' & after & -> & Ha & Hn & Hafter).
      exists before, m', (after ++ [x]). repeat split; [| done | done |].
      * by rewrite <- app_assoc.
      * intros y [Hy | ->%list_elem_of_singleton]%elem_of_app;
          [by apply Hafter | done].
Qed.

(** X22: after a member-joined event, for every member of the batch the
    index holds, under the member's address and name, the key of the last
    member of the batch that has this address and name (the member itself
    when no later one shares them), and the member's category has a ring,
    so [Info] finds it. *)
Theorem joined_event_fills_index (r : real)
  (batch : list members.Member.t) (m : members.Member.t) :
  m ∈ batch →
  let r' := handled r members.EventMemberJoined batch in
  (∃ before m' after,
     batch = before ++ m' :: after
     ∧ members.Member.Address m' = members.Member.Address m
     ∧ members.Member.Name m' = members.Member.Name m
     ∧ (∀ x, x ∈ after →
             ¬ (members.Member.Address x = members.Member.Address m
                ∧ members.Member.Name x = members.Member.Name m))
     ∧ entryAt r' (members.Member.Address m) (members.Member.Name m)
       = Some (NewMemberKey m'))
  ∧ (Info r' (members.PeerType_String (members.Member.PeerType m))).2
    = true.
Proof.
  intros Hm r'. split.
  - destruct (last_with_place batch m Hm)
      as (before & m' & after & Hbatch & Ha & Hn & Hafter).
    exists before, m', after. repeat split; [done .. |].
    unfold r'. rewrite Hbatch.
    change (handled r members.EventMemberJoined (before ++ m' :: after))
      with (foldl (λ st v, (Add st v).1) r
              (api.membersToKeys (before ++ m' :: after))).
    unfold api.membersToKeys. rewrite fmap_app, fmap_cons, foldl_app.
    cbn [foldl]. rewrite foldl_Add_entryAt_other.
    + rewrite Add_entryAt, decide_True; [done |]. by split.
    + intros k (x & -> & Hx)%list_elem_of_fmap. by apply Hafter.
  - apply Info_found, foldl_Add_ring.
    exists (NewMemberKey m). by split; [apply membersToKeys_elem |].
Qed.

(** X23: a member-updated event changes no ring and adds or removes no
    place of the index: every category keeps its ring as it was, [Info]
    reports the same [Hashes], and the index holds an entry under an
    address and a name exactly when it did before. *)
Theorem updated_event_inert (r : real) (batch : list members.Member.t) :
  let r' := handled r members.EventMemberUpdated batch in
  hashRings r' = hashRings r
  ∧ (∀ s, (Info r' s).2 = (Info r s).2
          ∧ Info.Hashes (Info r' s).1 = Info.Hashes (Info r s).1)
  ∧ ∀ a n, is_Some (entryAt r' a n) ↔ is_Some (entryAt r a n).
Proof.
  cbv zeta.
  change (handled r members.EventMemberUpdated batch)
    with (foldl (λ st v, (Update st v).1) r (api.membersToKeys batch)).
  generalize (api.membersToKeys batch) as ks. intros ks.
  assert (Hrings : hashRings (foldl (λ st v, (Update st v).1) r ks)
                   = hashRings r).
  { revert r. induction ks as [| k ks IH]; intros r; [done |].
    cbn [foldl]. by rewrite IH, Update_hashRings. }
  split; [exact Hrings |]. split.
  - intros s. apply Info_same_ring. by rewrite Hrings.
  - intros a n. clear Hrings. revert r.
    induction ks as [| k ks IH]; intros r; [done |].
    cbn [foldl]. by rewrite IH, Update_entryAt_is_Some.
Qed.

End EventsOnRegistry.

(** ** The further properties on concrete entries *)
Section ScenarioMore.
Import registry scenario.
#[local] Existing Instance decimal.

(** On a new registry, [Remove] and [Update] of a worker and [Add] of an
    entry of another category leave the category "worker" without a
    ring. *)
Lemma ring_only_by_Add_witness :
  let r := New fnv32a 2 in
  let ms := [CallRemove A; CallUpdate A; CallAdd A_store] in
  hashRings r !! "worker" = None
  ∧ (∀ key, CallAdd key ∈ ms → Key.Type' key ≠ "worker")
  ∧ hashRings (run r ms) !! "worker" = None
  ∧ Info (run r ms) "worker" = (Info.zero, false).
Proof.
  cbv zeta.
  assert (Hr : hashRings (New fnv32a 2) !! "worker" = None) by done.
  assert (Hms : ∀ key, CallAdd key
                       ∈ [CallRemove A; CallUpdate A; CallAdd A_store]
                       → Key.Type' key ≠ "worker").
  { intros key Hkey.
    apply elem_of_cons in Hkey as [[=] | Hkey].
    apply elem_of_cons in Hkey as [[=] | Hkey].
    apply list_elem_of_singleton in Hkey as [= ->]. done. }
  split; [exact Hr |]. split; [exact Hms |].
  exact (ring_only_by_Add _ _ "worker" Hr Hms).
Defined.

(** Two entries at the address of [A], replication factor 2: [Info]
    lists four entries under the address. *)
Lemma Info_Keys_repeats_witness :
  let r := run (New fnv32a 2) [CallAdd A; CallAdd A2; CallAdd B] in
  let a := Key.Address A in
  let l := default [] (Info.Keys (Info r "worker").1 !! a) in
  let c := length (filter (λ v, v = a)
                     (map_to_list (Info.Hashes (Info r "worker").1)).*2) in
  Info.Keys (Info r "worker").1 !! a = Some l
  ∧ length (getKeysByAddress r a) = 2%nat
  ∧ length l = 4%nat
  ∧ l ≡ₚ mjoin (replicate c (getKeysByAddress r a))
  ∧ length l = (c * length (getKeysByAddress r a))%nat
  ∧ (0 < c)%nat.
Proof.
  cbv zeta.
  set (r := run (New fnv32a 2) [CallAdd A; CallAdd A2; CallAdd B]).
  assert (Hl : Info.Keys (Info r "worker").1 !! Key.Address A
               = Some (default [] (Info.Keys (Info r "worker").1
                                     !! Key.Address A)))
    by (by vm_compute).
  split; [exact Hl |]. split; [by vm_compute |]. split; [by vm_compute |].
  exact (Info_Keys_repeats r "worker" (Key.Address A) _ Hl).
Defined.

(** [A] and [A2] share an address: after [Remove(A)] the index still
    holds [A2], and [Update(A2)] answers false. *)
Lemma Update_after_Remove_same_address_witness :
  let r := run (New fnv32a 2) [CallAdd A; CallAdd A2] in
  Key.Type' A2 = Key.Type' A
  ∧ Key.Address A2 = Key.Address A
  ∧ (Update r A2).2 = true
  ∧ keys (Remove r A).1 !! Key.Address A2 = Some {[ Key.Name A2 := A2 ]}
  ∧ (Update (Remove r A).1 A2).2 = false.
Proof.
  cbv zeta. split; [done |]. split; [done |].
  split; [by vm_compute |]. split; [by vm_compute |].
  by apply Update_after_Remove_same_address.
Defined.

(** [A] and [B] are registered; both members leave in one batch. *)
Lemma left_event_clears_index_witness :
  let r := run (New fnv32a 2) [CallAdd A; CallAdd B] in
  let batch := [peers.memberA; peers.memberB] in
  peers.memberB ∈ batch
  ∧ keys r !! "10.0.0.2:7000" = Some {[ "nodeB" := B ]}
  ∧ keys (api.HandleEvent {| api.registry := api.realRegistry |} r
            (peers.memberEvent members.EventMemberLeft batch)).1
      !! "10.0.0.2:7000" ≫= (λ row : gmap string Key.t, row !! "nodeB")
    = None.
Proof.
  cbv zeta.
  assert (Hm : peers.memberB ∈ [peers.memberA; peers.memberB])
    by (apply elem_of_cons; right; apply elem_of_cons; by left).
  split; [exact Hm |]. split; [by vm_compute |].
  exact (left_event_clears_index _ _ peers.memberB Hm).
Defined.

(** A batch in which the first and the last member share address and
    name: the index holds the key of the last one. *)
Lemma joined_event_fills_index_witness :
  let batch := [peers.memberA; peers.memberB; peers.memberA'] in
  let r' := (api.HandleEvent {| api.registry := api.realRegistry |}
               (New fnv32a 2)
               (peers.memberEvent members.EventMemberJoined batch)).1 in
  peers.memberA ∈ batch
  ∧ keys r' !! "10.0.0.1:7000"
      ≫= (λ row : gmap string Key.t, row !! "nodeA")
    = Some (NewMemberKey peers.memberA')
  ∧ (∃ before m' after,
       batch = before ++ m' :: after
       ∧ members.Member.Address m' = "10.0.0.1:7000"
       ∧ members.Member.Name m' = "nodeA"
       ∧ (∀ x, x ∈ after →
               ¬ (members.Member.Address x = "10.0.0.1:7000"
                  ∧ members.Member.Name x = "nodeA"))
       ∧ keys r' !! "10.0.0.1:7000"
           ≫= (λ row : gmap string Key.t, row !! "nodeA")
         = Some (NewMemberKey m'))
  ∧ (Info r' "worker").2 = true.
Proof.
  cbv zeta.
  assert (Hm : peers.memberA
               ∈ [peers.memberA; peers.memberB; peers.memberA'])
    by (apply elem_of_cons; by left).
  split; [exact Hm |]. split; [by vm_compute |].
  exact (joined_event_fills_index (New fnv32a 2) _ peers.memberA Hm).
Defined.

End ScenarioMore.

(** ** Calls that are repeated *)
Section Repeated.
Context `{!hashring.Layout}.
Import registry.

Lemma ring_Remove_again (ring : hashring.HashRing) (addr : string) :
  (hashring.Remove (hashring.Remove ring addr).1 addr).1
  = (hashring.Remove ring addr).1.
Proof.
  unfold hashring.Remove. cbn. f_equal.
  induction (hashring.positions ring) as [| p ps IH]; [done |].
  destruct (decide (p.2 ≠ addr)) as [Hp | Hp].
  - rewrite (filter_cons_True _ p ps) by done.
    rewrite (filter_cons_True _ p) by done. by rewrite IH.
  - by rewrite (filter_cons_False _ p ps) by done.
Qed.

Lemma ring_Add_again (ring : hashring.HashRing) (addr : string) :
  (hashring.Add (hashring.Add ring addr).1 addr).1
  = (hashring.Add ring addr).1.
Proof.
  destruct (hashring.Contains (hashring.Add ring addr).1 addr) eqn:Hc.
  { unfold hashring.Add at 1. by rewrite Hc. }
  assert (Hnone : hashring.virtualPositions ring addr = []).
  { apply elem_of_nil_inv. intros q Hq.
    pose proof (proj1 (Contains_false _ _) Hc q) as Hq'.
    apply Hq'.
    - apply Add_positions.
      destruct (hashring.Contains ring addr) eqn:Hc0.
      + unfold hashring.Add in Hc. rewrite Hc0 in Hc. cbn in Hc. congruence.
      + by right.
    - by apply elem_of_virtualPositions in Hq. }
  assert (Hsame : (hashring.Add ring addr).1 = ring).
  { unfold hashring.Add.
    destruct (hashring.Contains ring addr); [done |].
    rewrite Hnone. cbn. by destruct ring. }
  by rewrite !Hsame.
Qed.

Lemma real_eq (r1 r2 : real) :
  hashRings r1 = hashRings r2 → keys r1 = keys r2 →
  hashFn r1 = hashFn r2 → replicationFactor r1 = replicationFactor r2 →
  r1 = r2.
Proof. destruct r1, r2. cbn. by intros -> -> -> ->. Qed.

(** X24: [Remove] is idempotent: a second [Remove] of the same entry
    answers true again and leaves the registry as the first left it. *)
Theorem Remove_idempotent (r : real) (key : Key.t) :
  Remove (Remove r key).1 key = Remove r key.
Proof.
  assert (Hstate : (Remove (Remove r key).1 key).1 = (Remove r key).1).
  { apply real_eq; [| | done | done].
    - apply map_eq. intros c.
      rewrite (Remove_hashRings (Remove r key).1).
      case_decide as Hc; [| done].
      rewrite Remove_hashRings, decide_True by done.
      destruct (hashRings r !! c) as [ring |]; [| done].
      cbn [fmap option_fmap option_map]. f_equal.
      apply ring_Remove_again.
    - apply map_eq. intros a.
      rewrite (Remove_keys (Remove r key).1).
      case_decide as Ha; [| done].
      rewrite Remove_keys, decide_True by done.
      destruct (keys r !! a) as [row |]; [| done].
      cbn [fmap option_fmap option_map]. f_equal.
      apply map_eq. intros n.
      destruct (decide (n = Key.Name key)) as [-> | Hn].
      + by rewrite !lookup_delete_eq.
      + by rewrite !lookup_delete_ne. }
  transitivity ((Remove (Remove r key).1 key).1, true); [done |].
  by rewrite Hstate.
Qed.

(** X25: a second [Add] of the same entry leaves the registry as the
    first left it: the ring takes an address once, and the index is
    written with the same entry. *)
Theorem Add_again_same_state (r : real) (key : Key.t) :
  (Add (Add r key).1 key).1 = (Add r key).1.
Proof.
  rewrite (Add_unfold (Add r key).1). cbn [fst].
  rewrite Add_hashRings, decide_True by done.
  rewrite Add_keys, decide_True by done.
  cbn [default from_option id].
  rewrite ring_Add_again, insert_insert_eq.
  rewrite Add_unfold.
  cbn [fst withState hashRings keys hashFn replicationFactor].
  by rewrite !insert_insert_eq.
Qed.

End Repeated.
